(** * Quorum broadcast client of the PBFT-backed key server (mailvelope fork)

    Shallow embedding of [PBFTClient] (latest revision, the second class of
    the pbftClient module) and of the [KeyServer] facade (keyserver.js).

    - JavaScript values that reach template literals are rendered with the
      rules of [String(v)]: numbers in decimal, [undefined] as "undefined",
      objects as "[object Object]", arrays joined with ",".
    - The [responseMap] (a Proxy over a Map, returning 0 for unknown keys)
      is a [gmap string Z] read through [count].
    - A run of one broadcast is the list of node outcomes in the order in
      which their body-parsing continuations execute; each continuation is
      one call of the handler inside [processResponse]. *)

From Stdlib Require Import ZArith Ascii.
From stdpp Require Import base gmap strings list fin_maps.

Local Open Scope Z_scope.

Notation "a +:+ b" := (String.append a b) (at level 60, right associativity).

(* ------------------------------------------------------------------ *)
(** ** Rendering of JavaScript values inside template literals *)

Fixpoint uint_to_string (u : Decimal.uint) : string :=
  match u with
  | Decimal.Nil => ""
  | Decimal.D0 u => String "0" (uint_to_string u)
  | Decimal.D1 u => String "1" (uint_to_string u)
  | Decimal.D2 u => String "2" (uint_to_string u)
  | Decimal.D3 u => String "3" (uint_to_string u)
  | Decimal.D4 u => String "4" (uint_to_string u)
  | Decimal.D5 u => String "5" (uint_to_string u)
  | Decimal.D6 u => String "6" (uint_to_string u)
  | Decimal.D7 u => String "7" (uint_to_string u)
  | Decimal.D8 u => String "8" (uint_to_string u)
  | Decimal.D9 u => String "9" (uint_to_string u)
  end.

(** [String(n)] for an integral JavaScript number. *)
Definition render_Z (z : Z) : string :=
  match Z.to_int z with
  | Decimal.Pos u => uint_to_string u
  | Decimal.Neg u => "-" +:+ uint_to_string u
  end.

(** A property that may be [undefined]. *)
Definition render_opt_Z (z : option Z) : string :=
  match z with Some z => render_Z z | None => "undefined" end.

Definition render_opt_str (s : option string) : string :=
  match s with Some s => s | None => "undefined" end.

Local Set Warnings "-register-all".

(** Values produced by [response.json()]. A number is kept as the digits
    and exponent that [Number::toString] computes for it (ECMA-262, step 5):
    [JNum m e] is [m * 10^e] where [|m|] has as few digits as possible, so
    it is not a multiple of 10; [JNum 0 _] is zero. *)
Inductive json :=
| JNull
| JBool (b : bool)
| JNum (m : Z) (e : Z)
| JStr (s : string)
| JArr (l : list json)
| JObj (fields : list (string * json)).

Fixpoint join_comma (l : list string) : string :=
  match l with
  | [] => ""
  | [s] => s
  | s :: l => s +:+ "," +:+ join_comma l
  end.

Fixpoint zeros (n : nat) : string :=
  match n with O => "" | S n => "0" +:+ zeros n end.

(** [Number::toString(x)] (ECMA-262, radix 10), for [x = m * 10^e] given
    by its shortest digits: with [k] the number of digits of [|m|] and
    [n = e + k], plain digits when [k <= n <= 21], a decimal point inside
    the digits when [0 < n <= 21], a leading "0." when [-6 < n <= 0], and
    exponent notation otherwise. *)
Definition render_number (m e : Z) : string :=
  if m =? 0 then "0" else
  let ds := render_Z (Z.abs m) in
  let k := Z.of_nat (String.length ds) in
  let n := e + k in
  (if m <? 0 then "-" else "") +:+
  (if (k <=? n) && (n <=? 21) then ds +:+ zeros (Z.to_nat (n - k))
   else if (0 <? n) && (n <=? 21) then
     String.substring 0 (Z.to_nat n) ds +:+ "." +:+ String.substring (Z.to_nat n) (Z.to_nat (k - n)) ds
   else if (-6 <? n) && (n <=? 0) then "0." +:+ zeros (Z.to_nat (- n)) +:+ ds
   else
     let exp := "e" +:+ (if n - 1 <? 0 then "-" else "+") +:+ render_Z (Z.abs (n - 1)) in
     if k =? 1 then ds +:+ exp
     else String.substring 0 1 ds +:+ "." +:+ String.substring 1 (Z.to_nat (k - 1)) ds +:+ exp).

(** A parsed object has its own property "toString" (not callable: JSON
    holds no functions). *)
Definition has_toString (fields : list (string * json)) : bool :=
  existsb (fun kv => String.eqb kv.1 "toString") fields.

(** [String(v)] for a parsed JSON value; [None] when it throws a
    [TypeError]. An object renders as "[object Object]" unless it has an
    own "toString" property: [OrdinaryToPrimitive] then finds neither a
    callable [toString] nor a primitive [valueOf] result. An array is
    [Array.prototype.join] of its elements, rendering [null] as the empty
    string and throwing when an element does. *)
Fixpoint render_json (j : json) : option string :=
  match j with
  | JNull => Some "null"
  | JBool true => Some "true"
  | JBool false => Some "false"
  | JNum m e => Some (render_number m e)
  | JStr s => Some s
  | JArr l =>
      let fix go (l : list json) : option (list string) :=
        match l with
        | [] => Some []
        | e :: l =>
            match (match e with JNull => Some "" | e => render_json e end), go l with
            | Some s, Some r => Some (s :: r)
            | _, _ => None
            end
        end in
      match go l with Some r => Some (join_comma r) | None => None end
  | JObj fields => if has_toString fields then None else Some "[object Object]"
  end.

(* ------------------------------------------------------------------ *)
(** ** Node outcomes and [processResponse] *)

(** The value handed to [processResponse] by
    [promise.then(processResponse).catch(processResponse)], where [promise]
    is the race of [window.fetch] against the 7000 ms timer. *)
Inductive outcome :=
  (** a fetch [Response]: status, statusText, the settlement of
      [response.json()] and of [response.text()] ([None]: rejected) *)
| Response (status : Z) (statusText : string)
           (json_body : option json) (text_body : option string)
  (** the timer's rejection value [{status: 520, statusText: "Request Timeout"}] *)
| RequestTimeoutObj
  (** the [TypeError] with which [window.fetch] rejects on a network error *)
| FetchTypeError.

Definition timeout_ms : Z := 7000.

(** [response.ok]: status in the range 200-299. *)
Definition response_ok (status : Z) : bool := (200 <=? status) && (status <=? 299).

(** The continuation that [processResponse] schedules: it runs once the
    body has been read and updates [responseMap]. *)
Inductive vote :=
  (** [response.ok] branch, after [response.json()] resolved with [body]
      and [`${body}`] did not throw *)
| OkVote (status : Z) (statusText : string) (body : json)
  (** failure branch, after the body text was obtained ("" when
      [response.text] is undefined) *)
| FailVote (status : option Z) (statusText : option string) (body : string).

(** [processResponse] and the continuation it schedules, up to the update
    of [responseMap]. [None]: the node casts no vote, either because the
    body promise rejects (the continuation never runs and the rejection is
    not handled) or because the success continuation throws at
    [`${status} ${statusText} ${body}`] ([String(body)] throws), before it
    reads or writes [responseMap]. *)
Definition processResponse (o : outcome) : option vote :=
  match o with
  | Response status statusText j t =>
      if response_ok status then
        match j with
        | Some body =>
            match render_json body with
            | Some _ => Some (OkVote status statusText body)
            | None => None
            end
        | None => None
        end
      else
        match t with Some body => Some (FailVote (Some status) (Some statusText) body) | None => None end
  | RequestTimeoutObj => Some (FailVote (Some 520) (Some "Request Timeout") "")
  | FetchTypeError => Some (FailVote None None "")
  end.

(** The ResponseKey: [`${status} ${statusText} ${body}`] in both branches.
    [processResponse] yields an [OkVote] only when [String(body)] is
    defined, so the default "" is never used for a vote it yields. *)
Definition response_key (v : vote) : string :=
  match v with
  | OkVote status statusText body =>
      render_Z status +:+ " " +:+ statusText +:+ " " +:+ default "" (render_json body)
  | FailVote status statusText body =>
      render_opt_Z status +:+ " " +:+ render_opt_str statusText +:+ " " +:+ body
  end.

(** [Promise.race([fetch, timer])] for one node: [Some (t, o)] when the
    fetch settles with [o] after [t] ms, [None] when it never settles. *)
Definition race_with_timeout (answer : option (Z * outcome)) : outcome :=
  match answer with
  | Some (t, o) => if t <? timeout_ms then o else RequestTimeoutObj
  | None => RequestTimeoutObj
  end.

(** The vote one node contributes. *)
Definition node_vote (answer : option (Z * outcome)) : option vote :=
  processResponse (race_with_timeout answer).

(* ------------------------------------------------------------------ *)
(** ** [_broadcast]: counting and the one-shot latch *)

(** [this.F = Math.ceil((this.nodes.length - 1) / 3)]. *)
Definition fault_tolerance (n : nat) : Z := - ((- (Z.of_nat n - 1)) / 3).

Record bstate := BState {
  responseMap : gmap string Z;
  promiseResolved : bool
}.

Definition bstate_init : bstate := BState ∅ false.

(** The Proxy's [get] trap: unknown keys read as 0. *)
Definition count (m : gmap string Z) (k : string) : Z := default 0 (m !! k).

(** What the broadcast promise is settled with. *)
Inductive settlement :=
| Resolve (status : Z) (statusText : string) (body : json)
| Reject (error : string).

(** One run of the continuation scheduled by [processResponse]. *)
Definition process_vote (F : Z) (s : bstate) (v : vote) : bstate * option settlement :=
  match v with
  | OkVote status statusText body =>
      let res := response_key v in
      let n := count (responseMap s) res + 1 in
      let m := <[res := n]> (responseMap s) in
      if (n =? F + 1) && negb (promiseResolved s)
      then (BState m true, Some (Resolve status statusText body))
      else (BState m (promiseResolved s), None)
  | FailVote _ _ _ =>
      let error := response_key v in
      let m := <[error := count (responseMap s) error + 1]> (responseMap s) in
      if (count m error =? F + 1) && negb (promiseResolved s)
      then (BState m true, Some (Reject error))
      else (BState m (promiseResolved s), None)
  end.

(** Processing the votes in arrival order; the trace has one entry per
    vote: the call of [resolve] or [reject] it makes, if any. *)
Definition run_votes (F : Z) (vs : list vote) : bstate * list (option settlement) :=
  fold_left (fun acc v =>
               let '(s, tr) := acc in
               let '(s', e) := process_vote F s v in (s', tr ++ [e]))
            vs (bstate_init, []).

(** The externally visible state of the promise. *)
Inductive promise_state (A E : Type) :=
| Pending
| Resolved (a : A)
| Rejected (e : E).
Arguments Pending {A E}.
Arguments Resolved {A E} a.
Arguments Rejected {A E} e.

Fixpoint first_call (tr : list (option settlement)) : option settlement :=
  match tr with
  | [] => None
  | Some e :: _ => Some e
  | None :: tr => first_call tr
  end.

Record http_result := HttpResult {
  res_status : Z; res_statusText : string; res_body : json }.

Definition broadcast_promise (F : Z) (vs : list vote) : promise_state http_result string :=
  match first_call (run_votes F vs).2 with
  | Some (Resolve st txt b) => Resolved (HttpResult st txt b)
  | Some (Reject e) => Rejected e
  | None => Pending
  end.

(** A broadcast over the nodes: [arrivals] lists each node's race result in
    the order in which the continuations run. *)
Definition broadcast (n_nodes : nat) (arrivals : list (option (Z * outcome)))
  : promise_state http_result string :=
  broadcast_promise (fault_tolerance n_nodes) (omap node_vote arrivals).

(* ------------------------------------------------------------------ *)
(** ** Reading of the spec: counts over the arrivals *)

(** Number of arrived votes whose ResponseKey is [k]. *)
Fixpoint count_in (k : string) (l : list vote) : Z :=
  match l with
  | [] => 0
  | v :: l => (if bool_decide (response_key v = k) then 1 else 0) + count_in k l
  end.

(** The [j]-th arrival brings the counter of its key to [F + 1]. *)
Definition reaches (F : Z) (vs : list vote) (j : nat) : Prop :=
  exists w, vs !! j = Some w /\ count_in (response_key w) (take (S j) vs) = F + 1.

(** How the spec settles the call on the outcome that completes a quorum. *)
Definition settlement_of (v : vote) : settlement :=
  match v with
  | OkVote status statusText body => Resolve status statusText body
  | FailVote _ _ _ => Reject (response_key v)
  end.

(** The [i]-th arrival is the first one to bring some key to [F + 1], and
    [e] is what the call settles with. *)
Definition first_quorum (F : Z) (vs : list vote) (i : nat) (e : settlement) : Prop :=
  exists v, vs !! i = Some v /\
    count_in (response_key v) (take (S i) vs) = F + 1 /\
    (forall j, (j < i)%nat -> ~ reaches F vs j) /\
    e = settlement_of v.

(** The promise state a settlement call produces. *)
Definition promise_of (e : settlement) : promise_state http_result string :=
  match e with
  | Resolve st txt b => Resolved (HttpResult st txt b)
  | Reject err => Rejected err
  end.

(** The indeterminate split of the spec: N = 4, three distinct successes
    and one silent node. *)
Definition split_arrivals : list (option (Z * outcome)) :=
  [Some (10, Response 200 "OK" (Some (JStr "X")) None);
   Some (20, Response 200 "OK" (Some (JStr "Y")) None);
   Some (30, Response 200 "OK" (Some (JStr "Z")) None);
   None].

(* ------------------------------------------------------------------ *)
(** ** Workflows: [PBFTClient.lookup], [PBFTClient.upload], [KeyServer] *)

(** Cluster configuration: [config["nodes"]] and the derived [F]. *)
Record node := Node { host : string; clientport : string }.

Record client := Client { nodes : list node; F : Z }.

(** [new PBFTClient(config)]. *)
Definition new_PBFTClient (ns : list node) : client :=
  Client ns (fault_tolerance (length ns)).

(** [genPayload(email, publicKey)], extended by [appendSignature]:
    [signature] is [None] while the field is absent and [Some None] when
    it holds [null] (a cancelled [window.prompt]). *)
Record payload := Payload {
  alias : string;
  key : string;
  timestamp : Z;
  signature : option (option string)
}.

(** The options object handed to [window.fetch] by [_broadcast], with the
    path appended to every node's address ([None]: the path is [null]). *)
Record request := Request {
  req_path : option string;
  req_method : string;
  req_body : option payload
}.

(** A private key of the local keyring. *)
Record privkey := PrivKey {
  pk_fpr : string;            (** [primaryKey.fingerprint] *)
  pk_emails : list string;    (** the email addresses of its user ids *)
  pk_unlocked : bool
}.

(** Values thrown or rejected along the promise chains. *)
Inductive jserr :=
| ErrString (s : string)      (** a string: a ResponseKey or a message *)
| ErrObj (msg : string)       (** [new Error(msg)] or [{message: msg}] with a string *)
| ErrTypeError                (** property access on [undefined] *)
| ErrSyntax                   (** [JSON.parse] of a non-JSON text *)
| ErrMessage (e : jserr).     (** [{message: e}] *)

(** Effects visible outside the process or to the user. *)
Inductive event :=
| EvFetchConfig                    (** [window.fetch("config/cluster.json")] *)
| EvBroadcast (r : request)        (** one [_broadcast]: a request to every node *)
| EvPromptSignature                (** [window.prompt] for the authority's signature *)
| EvPromptPassphrase               (** [prompt] for the old key's password *)
| EvUnlock (fpr : string)          (** [pgpModel.unlockKey] on that key *)
| EvSign (fpr : string)            (** [openpgp.sign] with that key *)
| EvRemoveKey (fpr : string).      (** [ring.removeKey(fpr, "private")] *)

Record world := World {
  ring : list privkey;             (** private keys of the local keyring *)
  trace : list event;
  pbft_client : option client      (** [this._pbftClient] of the KeyServer *)
}.

(** The collaborators: the network (a whole broadcast, see [_broadcast]
    above for its aggregation), the configuration document, JavaScript and
    OpenPGP library functions, and the answers of the user prompts. *)
Record env := Env {
  net : client -> request -> promise_state http_result string;
  config_doc : promise_state (list node) jserr;
  encodeURIComponent : string -> string;
  read_armored_fpr : string -> option string;  (** [readArmored(s).keys[0]] fingerprint *)
  openpgp_sign : payload -> privkey -> promise_state string jserr;
  passphrase_ok : privkey -> option string -> bool;
  prompt_signature : option string;
  prompt_passphrase : option string;
  date_now : Z;
  json_parse : string -> option json           (** [JSON.parse]: [None] is a [SyntaxError] *)
}.

(** A promise chain over the world: [Pending] stops the chain. *)
Definition M (A : Type) := world -> world * promise_state A jserr.

Definition retM {A} (a : A) : M A := fun w => (w, Resolved a).
Definition throwM {A} (e : jserr) : M A := fun w => (w, Rejected e).
Definition liftM {A} (p : promise_state A jserr) : M A := fun w => (w, p).

(** [.then(k)] *)
Definition bindM {A B} (m : M A) (k : A -> M B) : M B :=
  fun w => let '(w', r) := m w in
    match r with
    | Resolved a => k a w'
    | Rejected e => (w', Rejected e)
    | Pending => (w', Pending)
    end.

(** [.catch(h)] *)
Definition catchM {A} (m : M A) (h : jserr -> M A) : M A :=
  fun w => let '(w', r) := m w in
    match r with
    | Rejected e => h e w'
    | Resolved a => (w', Resolved a)
    | Pending => (w', Pending)
    end.

Notation "m >>= k" := (bindM m k) (at level 50, left associativity).

Definition emit (ev : event) : M unit :=
  fun w => (World (ring w) (trace w ++ [ev]) (pbft_client w), Resolved tt).

(** A JavaScript string value: [undefined] or a string; falsy when
    [undefined] or empty. *)
Definition falsy (s : option string) : bool :=
  match s with None => true | Some "" => true | Some _ => false end.

(** Modelled from the spec: the Local Credential Store query
    [ring.getKeyByAddress([email], {pub: false, priv: true})[email]] (the
    keyring module is not part of the sources): the private keys whose user
    ids carry [email], in keyring order. *)
Definition getKeyByAddress (r : list privkey) (email : string) : list privkey :=
  filter (fun k => email ∈ pk_emails k) r.

(** Modelled from the spec: [ring.removeKey(fpr, "private")], removal of
    the keys with that fingerprint from the Local Credential Store. *)
Definition removeKey (fpr : string) (r : list privkey) : list privkey :=
  filter (fun k => pk_fpr k ≠ fpr) r.

(** Modelled from the spec: [pgpModel.unlockKey(key, passphrase)] (the
    pgpModel module is not part of the sources): the unlocked key, or a
    rejection when the passphrase is wrong. *)
Definition unlockKey (E : env) (k : privkey) (pass : option string) : promise_state privkey jserr :=
  if passphrase_ok E k pass
  then Resolved (PrivKey (pk_fpr k) (pk_emails k) true)
  else Rejected (ErrObj "Wrong password").

Section Workflows.
Variable E : env.

(** [_path(email)] *)
Definition _path (email : option string) : option string :=
  match email with
  | Some e => if falsy (Some e) then None else Some ("?name=" +:+ encodeURIComponent E e)
  | None => None
  end.

(** [_broadcast(path, method, body)]: the options object, one request per
    node, and the aggregated outcome; the rejection value is the
    ResponseKey string. *)
Definition _broadcast (c : client) (path : option string) (method : option string)
    (body : option payload) : M http_result :=
  let req := match method with
             | Some m => Request path m body
             | None => Request path "GET" None
             end in
  emit (EvBroadcast req) >>= fun _ =>
  liftM (match net E c req with
         | Resolved r => Resolved r
         | Rejected s => Rejected (ErrString s)
         | Pending => Pending
         end).

(** The record built by [PBFTClient.lookup] (and then [JSON.stringify]ed). *)
Record credential := Credential {
  cred_keyId : string;
  cred_fingerprint : string;
  cred_userIds : list (string * option string * bool);
  cred_created : string;
  cred_uploaded : string;
  cred_algorithm : string;
  cred_keySize : Z;
  cred_publicKeyArmored : json
}.

(** [PBFTClient.lookup(email)] *)
Definition pbft_lookup (c : client) (email : option string) : M credential :=
  catchM
    (_broadcast c (_path email) None None >>= fun r =>
     retM (Credential "keyid" "fingerprint" [("name", email, true)]
             "2017-12-10T03: 03: 20.763Z" "2017-12-10T03: 03: 20.763Z"
             "rsa_encrypt_sign" 4096 (res_body r)))
    (fun e => throwM e).

Definition genPayload (email publicKey : string) : payload :=
  Payload email publicKey (date_now E) None.

Definition appendSignature (p : payload) (sig : option string) : payload :=
  Payload (alias p) (key p) (timestamp p) (Some sig).

(** [signPayload(payload, key)] *)
Definition signPayload (p : payload) (k : privkey) : M payload :=
  emit (EvSign (pk_fpr k)) >>= fun _ =>
  liftM (openpgp_sign E p k) >>= fun sig => retM (appendSignature p (Some sig)).

(** [lockedKeys[email].filter(k => k.primaryKey.fingerprint !=
    excludeKey.primaryKey.fingerprint)]: the callback dereferences
    [excludeKey], a [TypeError] when the armored key did not parse. *)
Definition exclude_fpr (ex : option string) (l : list privkey) : M (list privkey) :=
  match l, ex with
  | [], _ => retM []
  | _ :: _, None => throwM ErrTypeError
  | _, Some fx => retM (filter (fun k => pk_fpr k ≠ fx) l)
  end.

(** [findPrivateKey(email, exclude)] *)
Definition findPrivateKey (email exclude : string) : M privkey :=
  fun w =>
    (exclude_fpr (read_armored_fpr E exclude) (getKeyByAddress (ring w) email) >>= fun lockedKeysEx =>
     match lockedKeysEx with
     | [] => throwM (ErrObj ("You do not own the key for the email " +:+ email +:+
                             " so you cannot update it."))
     | lockedKey :: _ =>
         emit EvPromptPassphrase >>= fun _ =>
         emit (EvUnlock (pk_fpr lockedKey)) >>= fun _ =>
         liftM (unlockKey E lockedKey (prompt_passphrase E))
     end) w.

(** [ring.removeKey(fpr, "private")] on the world. *)
Definition removeKeyM (fpr : string) : M unit :=
  fun w => (World (removeKey fpr (ring w)) (trace w ++ [EvRemoveKey fpr]) (pbft_client w),
            Resolved tt).

(** [typeof e === "string" && e.startsWith(404)] *)
Definition is_not_found (e : jserr) : bool :=
  match e with ErrString s => String.prefix "404" s | _ => false end.

(** [PBFTClient.upload({email, publicKeyArmored})] *)
Definition pbft_upload (c : client) (email publicKey : string) : M http_result :=
  catchM
    (pbft_lookup c (Some email) >>= fun _ =>
     findPrivateKey email publicKey >>= fun oldPrivateKey =>
     signPayload (genPayload email publicKey) oldPrivateKey >>= fun signedPayload =>
     catchM
       (_broadcast c (Some "") (Some "PUT") (Some signedPayload) >>= fun r =>
        removeKeyM (pk_fpr oldPrivateKey) >>= fun _ => retM r)
       (fun e => throwM (ErrMessage e)))
    (fun e =>
       if is_not_found e then
         emit EvPromptSignature >>= fun _ =>
         catchM
           (_broadcast c (Some "") (Some "POST")
              (Some (appendSignature (genPayload email publicKey) (prompt_signature E))))
           (fun e => throwM (ErrMessage e))
       else throwM e).

(** [KeyServer.getPBFTClient()]: returns [this._pbftClient] when set,
    otherwise fetches the configuration and builds a new client. *)
Definition getPBFTClient : M client :=
  fun w =>
    match pbft_client w with
    | Some c => (w, Resolved c)
    | None =>
        (emit EvFetchConfig >>= fun _ =>
         liftM (config_doc E) >>= fun ns => retM (new_PBFTClient ns)) w
    end.

End Workflows.

(** A fresh KeyServer with an empty keyring. *)
Definition world_init : world := World [] [] None.

(** The request of [PBFTClient.lookup(email)]. *)
Definition lookup_request (E : env) (email : option string) : request :=
  Request (_path E email) "GET" None.

(** The requests of the broadcasts recorded in a list of events. *)
Definition broadcasts (evs : list event) : list request :=
  omap (fun ev => match ev with EvBroadcast r => Some r | _ => None end) evs.

(* ------------------------------------------------------------------ *)
(** ** The counting latch, for any ResponseKey *)

(** Both revisions of [_broadcast] count arrivals per key in the Proxy map
    and settle once; they differ in the key and in the settlement value. *)
Section Latch.
Context {V : Type} (key : V -> string) (settle : V -> settlement).

Definition latch_step (F : Z) (s : bstate) (v : V) : bstate * option settlement :=
  let c := count (responseMap s) (key v) + 1 in
  (BState (<[key v := c]> (responseMap s)) (promiseResolved s || (c =? F + 1)),
   if (c =? F + 1) && negb (promiseResolved s) then Some (settle v) else None).

Definition latch_run (F : Z) (vs : list V) : bstate * list (option settlement) :=
  fold_left (fun acc v =>
               let '(s, tr) := acc in
               let '(s', e) := latch_step F s v in (s', tr ++ [e]))
            vs (bstate_init, []).

Fixpoint count_by (k : string) (l : list V) : Z :=
  match l with
  | [] => 0
  | v :: l => (if bool_decide (key v = k) then 1 else 0) + count_by k l
  end.

Definition reaches_by (F : Z) (vs : list V) (j : nat) : Prop :=
  exists w, vs !! j = Some w /\ count_by (key w) (take (S j) vs) = F + 1.

Definition first_quorum_by (F : Z) (vs : list V) (i : nat) (e : settlement) : Prop :=
  exists v, vs !! i = Some v /\
    count_by (key v) (take (S i) vs) = F + 1 /\
    (forall j, (j < i)%nat -> ~ reaches_by F vs j) /\
    e = settle v.

End Latch.

(* ------------------------------------------------------------------ *)
(** ** The first revision of [_broadcast] (src/modules/pbftClient.js) *)

Module V1.

(** The continuation run for one node: a success after [response.json()]
    resolved and [`${body}`] did not throw; a failure, handled
    synchronously, without reading the body. *)
Inductive vote :=
| OkVote (status : Z) (statusText : string) (body : json)
| FailVote (status : option Z) (statusText : option string).

(** As in the later revision, a success whose [String(body)] throws (at
    the [console.log] that precedes the update) casts no vote. *)
Definition processResponse (o : outcome) : option vote :=
  match o with
  | Response status statusText j _ =>
      if response_ok status then
        match j with
        | Some body =>
            match render_json body with
            | Some _ => Some (OkVote status statusText body)
            | None => None
            end
        | None => None
        end
      else Some (FailVote (Some status) (Some statusText))
  | RequestTimeoutObj => Some (FailVote (Some 520) (Some "Request Timeout"))
  | FetchTypeError => Some (FailVote None None)
  end.

Definition node_vote (answer : option (Z * outcome)) : option vote :=
  processResponse (race_with_timeout answer).

(** [`${status}${statusText}${body}`] and [`${status}${statusText}`]. *)
Definition vote_key (v : vote) : string :=
  match v with
  | OkVote status statusText body =>
      render_Z status +:+ statusText +:+ default "" (render_json body)
  | FailVote status statusText => render_opt_Z status +:+ render_opt_str statusText
  end.

(** [reject(`${status} ${statusText}`)] and [resolve({status, statusText, body})]. *)
Definition settle (v : vote) : settlement :=
  match v with
  | OkVote status statusText body => Resolve status statusText body
  | FailVote status statusText => Reject (render_opt_Z status +:+ " " +:+ render_opt_str statusText)
  end.

Definition process_vote (F : Z) (s : bstate) (v : vote) : bstate * option settlement :=
  match v with
  | OkVote status statusText body =>
      let k := render_Z status +:+ statusText +:+ default "" (render_json body) in
      let n := count (responseMap s) k + 1 in
      let m := <[k := n]> (responseMap s) in
      if (n =? F + 1) && negb (promiseResolved s)
      then (BState m true, Some (Resolve status statusText body))
      else (BState m (promiseResolved s), None)
  | FailVote status statusText =>
      let k := render_opt_Z status +:+ render_opt_str statusText in
      let m := <[k := count (responseMap s) k + 1]> (responseMap s) in
      if (count m k =? F + 1) && negb (promiseResolved s)
      then (BState m true, Some (Reject (render_opt_Z status +:+ " " +:+ render_opt_str statusText)))
      else (BState m (promiseResolved s), None)
  end.

Definition run_votes (F : Z) (vs : list vote) : bstate * list (option settlement) :=
  fold_left (fun acc v =>
               let '(s, tr) := acc in
               let '(s', e) := process_vote F s v in (s', tr ++ [e]))
            vs (bstate_init, []).

Definition broadcast_promise (F : Z) (vs : list vote) : promise_state http_result string :=
  match first_call (run_votes F vs).2 with
  | Some (Resolve st txt b) => Resolved (HttpResult st txt b)
  | Some (Reject e) => Rejected e
  | None => Pending
  end.

Definition broadcast (n_nodes : nat) (arrivals : list (option (Z * outcome)))
  : promise_state http_result string :=
  broadcast_promise (fault_tolerance n_nodes) (omap node_vote arrivals).

(** [_broadcast(path)] as [lookup] calls it, with [method] and [body]
    undefined: [options] is [{method: "GET"}]; the promise rejects with
    the string [`${status} ${statusText}`]. *)
Definition _broadcast (E : env) (c : client) (path : option string) : M http_result :=
  let req := Request path "GET" None in
  emit (EvBroadcast req) >>= fun _ =>
  liftM (match net E c req with
         | Resolved r => Resolved r
         | Rejected s => Rejected (ErrString s)
         | Pending => Pending
         end).

(** [PBFTClient.lookup(email)] of the first revision: it resolves with
    the broadcast's [{status, statusText, body}] and rethrows errors. *)
Definition lookup (E : env) (c : client) (email : option string) : M http_result :=
  catchM (_broadcast E c (_path E email) >>= fun r => retM r) (fun e => throwM e).

End V1.

(** [JSON.parse(v)] for a parsed value [v]: [ToString(v)] first (the
    string itself for a string), which may throw a [TypeError]; then the
    text is parsed, or a [SyntaxError] is thrown. *)
Definition JSON_parse (E : env) (v : json) : M (option json) :=
  match render_json v with
  | None => throwM ErrTypeError
  | Some text =>
      match json_parse E text with
      | Some j => retM (Some j)
      | None => throwM ErrSyntax
      end
  end.

(** [KeyServer.lookup({email})]. keyserver.js imports [PBFTClient] from
    ./pbftClient.js, the first revision, whose [lookup] resolves with
    [{status, statusText, body}]; the facade resolves with
    [JSON.parse(response.body)] ([Some]), or with [undefined] ([None]) when
    anything before fails: its [.catch] logs the error and returns
    [undefined]. *)
Definition ks_lookup (E : env) (email : option string) : M (option json) :=
  if falsy email then
    throwM (ErrString "Only lookup by email is currently supported by PBFT")
  else
    catchM
      (getPBFTClient E >>= fun client =>
       V1.lookup E client email >>= fun response =>
       JSON_parse E (res_body response))
      (fun _error => retM None).

(** A success vote carrying the key "KEY-X". *)
Definition okX : vote := OkVote 200 "OK" (JStr "KEY-X").

(** A computation that leaves the local keyring as it is. *)
Definition keeps_ring {A} (m : M A) : Prop := forall w, ring (m w).1 = ring w.

(** A computation that sends no request to the cluster: it only appends
    events other than broadcasts to the trace. *)
Definition quiet {A} (m : M A) : Prop :=
  forall w, exists evs, trace (m w).1 = trace w ++ evs /\ broadcasts evs = [].

(** A cluster of four nodes. *)
Definition nodes4 : list node :=
  [Node "10.0.0.1" "8001"; Node "10.0.0.2" "8002";
   Node "10.0.0.3" "8003"; Node "10.0.0.4" "8004"].

Definition client4 : client := new_PBFTClient nodes4.

Definition fail404 : vote := FailVote (Some 404) (Some "Not Found") "".

Definition digit_of (c : ascii) : option Z :=
  let n := Z.of_nat (nat_of_ascii c) in
  if (48 <=? n) && (n <=? 57) then Some (n - 48) else None.

Fixpoint digits_value (s : string) (acc : Z) : option Z :=
  match s with
  | EmptyString => Some acc
  | String c s => match digit_of c with Some d => digits_value s (acc * 10 + d) | None => None end
  end.

Fixpoint strip_zeros (fuel : nat) (m e : Z) : Z * Z :=
  match fuel with
  | O => (m, e)
  | S fuel =>
      if (m =? 0) || negb (m mod 10 =? 0) then (m, e) else strip_zeros fuel (m / 10) (e + 1)
  end.

(** The [JSON.parse] of the scenarios below: it reads integer literals of
    at most 15 digits (exact in binary64) and treats every other text as a
    [SyntaxError]. It agrees with [JSON.parse] on the texts these scenarios
    produce: such literals, "OLD-PUBLIC-KEY" and "[object Object]". *)
Definition parse_integer_literal (text : string) : option json :=
  let '(neg, body) := match text with
                      | String "-"%char t => (true, t)
                      | t => (false, t)
                      end in
  match body with
  | EmptyString => None
  | String "0"%char (String _ _) => None
  | _ =>
      if (15 <? String.length body)%nat then None else
      match digits_value body 0 with
      | Some v =>
          let '(m, e) := strip_zeros (String.length body) v 0 in
          Some (JNum (if neg then - m else m) e)
      | None => None
      end
  end.

(** A cluster of four nodes whose lookups all fail with the same
    "404 Not Found" outcome. *)
Definition env_404 : env :=
  Env (fun c _ => broadcast_promise (F c) [fail404; fail404])
      (Resolved nodes4)
      (fun s => s) (fun _ => Some "FPR-NEW") (fun _ _ => Resolved "SIG")
      (fun _ _ => true) (Some "SIG-AUTHORITY") (Some "secret") 1512874988000
      parse_integer_literal.

(** A cluster on which the lookup finds a record and every update commits. *)
Definition env_found : env :=
  Env (fun c req => if String.eqb (req_method req) "GET"
                    then Resolved (HttpResult 200 "OK" (JStr "OLD-PUBLIC-KEY"))
                    else Resolved (HttpResult 200 "OK" (JStr "committed")))
      (Resolved nodes4)
      (fun s => s) (fun _ => Some "FPR-NEW") (fun _ _ => Resolved "SIG")
      (fun _ _ => true) (Some "SIG-AUTHORITY") (Some "secret") 1512874988000
      parse_integer_literal.

(** A keyring holding an older key of alice, and one holding only the key
    being uploaded. *)
Definition alice_old_key : privkey := PrivKey "FPR-OLD" ["alice@example.org"] false.

Definition world_owner : world := World [alice_old_key] [] None.

Definition world_not_owner : world :=
  World [PrivKey "FPR-NEW" ["alice@example.org"] false] [] None.

(** [env_found] with an uploaded key that does not parse. *)
Definition env_unreadable_key : env :=
  Env (net env_found) (config_doc env_found) (fun s => s) (fun _ => None)
      (openpgp_sign env_found) (passphrase_ok env_found) (prompt_signature env_found)
      (prompt_passphrase env_found) (date_now env_found) (json_parse env_found).

(** A failure vote of the first revision: "404 Not Found". *)
Definition v1_fail404 : V1.vote := V1.FailVote (Some 404) (Some "Not Found").

(** The cluster as the first-revision client sees it: every lookup is
    answered 404 Not Found by the nodes. *)
Definition env_404_v1 : env :=
  Env (fun c _ => V1.broadcast_promise (F c) [v1_fail404; v1_fail404])
      (Resolved nodes4)
      (fun s => s) (fun _ => Some "FPR-NEW") (fun _ _ => Resolved "SIG")
      (fun _ _ => true) (Some "SIG-AUTHORITY") (Some "secret") 1512874988000
      parse_integer_literal.


(** A node answering 200 OK in time, with a JSON object body. *)
Definition object_answer (fields : list (string * json)) : option (Z * outcome) :=
  Some (0, Response 200 "OK" (Some (JObj fields)) None).

Example fault_tolerance_1 : fault_tolerance 1 = 0. Proof. reflexivity. Qed.
Example fault_tolerance_4 : fault_tolerance 4 = 1. Proof. reflexivity. Qed.
Example fault_tolerance_7 : fault_tolerance 7 = 2. Proof. reflexivity. Qed.
Example fault_tolerance_10 : fault_tolerance 10 = 3. Proof. reflexivity. Qed.
Example key_timeout : response_key (FailVote (Some 520) (Some "Request Timeout") "") = "520 Request Timeout ".
Proof. reflexivity. Qed.
Example broadcast_quorum :
  broadcast 4 [Some (1, Response 200 "OK" (Some (JStr "X")) None);
               Some (2, Response 200 "OK" (Some (JStr "Y")) None);
               None;
               Some (3, Response 200 "OK" (Some (JStr "X")) None)]
  = Resolved (HttpResult 200 "OK" (JStr "X")).
Proof. vm_compute. reflexivity. Qed.

(* ------------------------------------------------------------------ *)
(** ** Lemmas on the counting loop *)

Lemma count_insert_eq (m : gmap string Z) (k : string) (n : Z) :
  count (<[k := n]> m) k = n.
Proof. unfold count. rewrite lookup_insert_eq. reflexivity. Qed.

Lemma process_vote_eq (F : Z) (s : bstate) (v : vote) :
  process_vote F s v =
  (let c := count (responseMap s) (response_key v) + 1 in
   (BState (<[response_key v := c]> (responseMap s)) (promiseResolved s || (c =? F + 1)),
    if (c =? F + 1) && negb (promiseResolved s) then Some (settlement_of v) else None)).
Proof.
  destruct s as [m r]; destruct v as [st txt b|st txt b];
    cbn [process_vote responseMap promiseResolved settlement_of];
    rewrite ?count_insert_eq;
    destruct (count m _ + 1 =? F + 1), r; reflexivity.
Qed.

Lemma run_votes_snoc (F : Z) (vs : list vote) (v : vote) :
  run_votes F (vs ++ [v]) =
  (let '(s, tr) := run_votes F vs in
   let '(s', e) := process_vote F s v in (s', tr ++ [e])).
Proof.
  unfold run_votes. rewrite fold_left_app. simpl.
  destruct (fold_left _ vs _) as [s tr]. reflexivity.
Qed.

Lemma count_in_app (k : string) (l1 l2 : list vote) :
  count_in k (l1 ++ l2) = count_in k l1 + count_in k l2.
Proof. induction l1 as [|w l1 IH]; simpl; lia. Qed.

Lemma count_in_single (k : string) (v : vote) :
  count_in k [v] = if bool_decide (response_key v = k) then 1 else 0.
Proof. simpl. lia. Qed.

Lemma count_in_take_le (k : string) (vs : list vote) (n : nat) :
  count_in k (take n vs) <= count_in k vs.
Proof.
  revert n. induction vs as [|w vs IH]; intros [|n]; simpl.
  - lia.
  - lia.
  - pose proof (IH 0%nat). simpl in *. case_bool_decide; lia.
  - pose proof (IH n). lia.
Qed.

Lemma count_in_nonneg (k : string) (vs : list vote) : 0 <= count_in k vs.
Proof. induction vs as [|w vs IH]; simpl; [lia|case_bool_decide; lia]. Qed.

Lemma reaches_snoc_lt (F : Z) (vs : list vote) (v : vote) (j : nat) :
  (j < length vs)%nat -> reaches F (vs ++ [v]) j <-> reaches F vs j.
Proof.
  intros Hj. unfold reaches.
  rewrite lookup_app_l by lia. rewrite take_app_le by lia. reflexivity.
Qed.

Lemma reaches_snoc_last (F : Z) (vs : list vote) (v : vote) :
  reaches F (vs ++ [v]) (length vs) <-> count_in (response_key v) vs + 1 = F + 1.
Proof.
  unfold reaches.
  assert (Hl : (vs ++ [v]) !! length vs = Some v)
    by (rewrite lookup_app_r by lia; rewrite Nat.sub_diag; reflexivity).
  assert (Ht : take (S (length vs)) (vs ++ [v]) = vs ++ [v])
    by (apply take_ge; rewrite length_app; simpl; lia).
  assert (Hc : count_in (response_key v) (vs ++ [v]) = count_in (response_key v) vs + 1)
    by (rewrite count_in_app, count_in_single, bool_decide_eq_true_2 by reflexivity; lia).
  rewrite Hl, Ht. split.
  - intros (w & [= <-] & H). lia.
  - intros H. exists v. split; [reflexivity|lia].
Qed.

Lemma reaches_lt_length (F : Z) (vs : list vote) (j : nat) :
  reaches F vs j -> (j < length vs)%nat.
Proof. intros (w & Hw & _). apply lookup_lt_Some in Hw. exact Hw. Qed.

Lemma first_quorum_snoc_lt (F : Z) (vs : list vote) (v : vote) (i : nat) (e : settlement) :
  (i < length vs)%nat -> first_quorum F (vs ++ [v]) i e <-> first_quorum F vs i e.
Proof.
  intros Hi. unfold first_quorum.
  rewrite lookup_app_l by lia. rewrite take_app_le by lia.
  split; intros (w & Hw & Hc & Hfirst & He); exists w; repeat split; auto;
    intros j Hj; [rewrite <- reaches_snoc_lt by lia | rewrite reaches_snoc_lt by lia];
    apply Hfirst; lia.
Qed.

Lemma first_quorum_lt_length (F : Z) (vs : list vote) (i : nat) (e : settlement) :
  first_quorum F vs i e -> (i < length vs)%nat.
Proof. intros (w & Hw & _). apply lookup_lt_Some in Hw. exact Hw. Qed.

(** The invariant of [run_votes]: the map holds the counts of every
    arrival, the latch is set iff some arrival completed a quorum, and the
    trace records a call of [resolve]/[reject] exactly at the first one. *)
Lemma run_votes_inv (F : Z) (vs : list vote) :
  let '(s, tr) := run_votes F vs in
  (forall k, count (responseMap s) k = count_in k vs) /\
  (promiseResolved s = true <-> exists j, reaches F vs j) /\
  length tr = length vs /\
  (forall i e, tr !! i = Some (Some e) <-> first_quorum F vs i e).
Proof.
  induction vs as [|v vs IH] using rev_ind.
  - simpl. split; [|split; [|split]].
    + intros k. reflexivity.
    + split; [discriminate|]. intros (j & w & Hw & _). inversion Hw.
    + reflexivity.
    + intros i e. split; [rewrite lookup_nil; discriminate|].
      intros (w & Hw & _). inversion Hw.
  - rewrite run_votes_snoc. destruct (run_votes F vs) as [s tr].
    destruct IH as (Hcnt & Hres & Hlen & Htr).
    rewrite process_vote_eq. simpl.
    set (c := count (responseMap s) (response_key v) + 1).
    assert (Hc : c = count_in (response_key v) vs + 1) by (unfold c; rewrite Hcnt; reflexivity).
    split; [|split; [|split]].
    + intros k. unfold count at 1. rewrite lookup_insert.
      rewrite count_in_app, count_in_single. case_decide as Hk.
      * subst k. simpl. rewrite bool_decide_eq_true_2 by reflexivity. lia.
      * rewrite bool_decide_eq_false_2 by congruence. fold (count (responseMap s) k).
        rewrite Hcnt. lia.
    + rewrite orb_true_iff, Hres, Z.eqb_eq. split.
      * intros [(j & Hj) | Heq].
        -- exists j. rewrite reaches_snoc_lt by (apply (reaches_lt_length F); exact Hj). exact Hj.
        -- exists (length vs). apply reaches_snoc_last. lia.
      * intros (j & Hj). pose proof (reaches_lt_length _ _ _ Hj) as Hlt.
        rewrite length_app in Hlt. simpl in Hlt.
        destruct (decide (j = length vs)) as [->|Hne].
        -- right. apply reaches_snoc_last in Hj. lia.
        -- left. exists j. rewrite <- reaches_snoc_lt by lia. exact Hj.
    + rewrite !length_app, Hlen. reflexivity.
    + intros i e. destruct (Nat.lt_total i (length vs)) as [Hlt|[->|Hgt]].
      * rewrite lookup_app_l by lia. rewrite first_quorum_snoc_lt by lia. apply Htr.
      * rewrite lookup_app_r by lia. rewrite Hlen, Nat.sub_diag. simpl.
        split.
        -- destruct (c =? F + 1) eqn:HcF; destruct (promiseResolved s) eqn:Hr;
             simpl; intros H; inversion H; subst e.
           apply Z.eqb_eq in HcF.
           exists v. split; [rewrite lookup_app_r by lia; rewrite Nat.sub_diag; reflexivity|].
           split; [|split; [|reflexivity]].
           ++ rewrite take_ge by (rewrite length_app; simpl; lia).
              rewrite count_in_app, count_in_single, bool_decide_eq_true_2 by reflexivity. lia.
           ++ intros j Hj Hreach. rewrite reaches_snoc_lt in Hreach by lia.
              assert (Hf : false = true) by (apply Hres; eauto). discriminate Hf.
        -- intros (w & Hw & Hcw & Hfirst & He).
           rewrite lookup_app_r in Hw by lia. rewrite Nat.sub_diag in Hw.
           simpl in Hw. inversion Hw; subst w.
           rewrite take_ge in Hcw by (rewrite length_app; simpl; lia).
           rewrite count_in_app, count_in_single, bool_decide_eq_true_2 in Hcw by reflexivity.
           assert (HcF : (c =? F + 1) = true) by (apply Z.eqb_eq; lia).
           destruct (promiseResolved s) eqn:Hr.
           ++ exfalso. destruct Hres as [Hres _]. destruct (Hres eq_refl) as (j & Hj).
              pose proof (reaches_lt_length _ _ _ Hj).
              apply (Hfirst j); [lia|]. rewrite reaches_snoc_lt by lia. exact Hj.
           ++ rewrite HcF. simpl. subst e. reflexivity.
      * rewrite lookup_ge_None_2 by (rewrite length_app, Hlen; simpl; lia).
        split; [discriminate|]. intros Hq. apply first_quorum_lt_length in Hq.
        rewrite length_app in Hq. simpl in Hq. lia.
Qed.


Lemma first_call_at (tr : list (option settlement)) (i : nat) (e : settlement) :
  tr !! i = Some (Some e) ->
  (forall j e', tr !! j = Some (Some e') -> j = i) ->
  first_call tr = Some e.
Proof.
  revert i. induction tr as [|o tr IH]; intros i Hi Huniq; [inversion Hi|].
  destruct i as [|i]; simpl in *.
  - inversion Hi; subst. reflexivity.
  - destruct o as [e'|].
    + specialize (Huniq 0%nat e' eq_refl). discriminate Huniq.
    + apply (IH i Hi). intros j e' Hj. specialize (Huniq (S j) e' Hj). lia.
Qed.

Lemma first_call_none (tr : list (option settlement)) :
  (forall i e, tr !! i <> Some (Some e)) -> first_call tr = None.
Proof.
  induction tr as [|o tr IH]; intros H; [reflexivity|].
  destruct o as [e|].
  - exfalso. apply (H 0%nat e). reflexivity.
  - simpl. apply IH. intros i e. apply (H (S i) e).
Qed.

Lemma first_quorum_unique (F : Z) (vs : list vote) (i j : nat) (e1 e2 : settlement) :
  first_quorum F vs i e1 -> first_quorum F vs j e2 -> i = j.
Proof.
  intros (v & Hv & Hcv & Hfv & _) (w & Hw & Hcw & Hfw & _).
  destruct (Nat.lt_total i j) as [Hlt|[Heq|Hgt]]; [|exact Heq|].
  - exfalso. apply (Hfw i Hlt). exists v. auto.
  - exfalso. apply (Hfv j Hgt). exists w. auto.
Qed.

Lemma count_in_notin (k : string) (vs : list vote) :
  k ∉ map response_key vs -> count_in k vs = 0.
Proof.
  induction vs as [|w vs IH]; intros Hk; [reflexivity|]. simpl in *.
  rewrite not_elem_of_cons in Hk. destruct Hk as [Hk1 Hk2].
  rewrite bool_decide_eq_false_2 by congruence. rewrite IH by exact Hk2. reflexivity.
Qed.

Lemma count_in_nodup (k : string) (vs : list vote) :
  NoDup (map response_key vs) -> count_in k vs <= 1.
Proof.
  induction vs as [|w vs IH]; intros Hd; simpl; [lia|].
  simpl in Hd. apply NoDup_cons in Hd as [Hw Hd].
  case_bool_decide as Hk.
  - subst k. rewrite count_in_notin by exact Hw. lia.
  - specialize (IH Hd). lia.
Qed.

Lemma reaches_total (F : Z) (vs : list vote) (j : nat) :
  reaches F vs j -> exists k, F + 1 <= count_in k vs.
Proof.
  intros (w & _ & Hc). exists (response_key w).
  pose proof (count_in_take_le (response_key w) vs (S j)). lia.
Qed.

Lemma broadcast_promise_first_quorum (F : Z) (vs : list vote) (i : nat) (e : settlement) :
  first_quorum F vs i e -> broadcast_promise F vs = promise_of e.
Proof.
  intros Hq. pose proof (run_votes_inv F vs) as Hinv. unfold broadcast_promise.
  destruct (run_votes F vs) as [s tr]. destruct Hinv as (_ & _ & _ & Htr). simpl.
  rewrite (first_call_at tr i e).
  - destruct e; reflexivity.
  - apply Htr. exact Hq.
  - intros j e' Hj. apply Htr in Hj.
    exact (first_quorum_unique F vs j i e' e Hj Hq).
Qed.

Lemma process_vote_counts (F : Z) (s : bstate) (v : vote) (k : string) :
  count (responseMap (process_vote F s v).1) k =
  count (responseMap s) k + (if bool_decide (response_key v = k) then 1 else 0).
Proof.
  rewrite process_vote_eq. simpl. unfold count at 1. rewrite lookup_insert.
  case_decide as Hk; case_bool_decide; try congruence.
  - subst k. reflexivity.
  - fold (count (responseMap s) k). lia.
Qed.

(* ------------------------------------------------------------------ *)
(** ** Claims on the quorum broadcast *)

(** C1: with [F = Math.ceil((N-1)/3)], processing the arrivals in any
    order, every arrival is counted under its ResponseKey (also after the
    call settled), [resolve]/[reject] is called at most once, and it is
    called exactly at the first arrival whose key's counter reaches
    [F + 1]: with that arrival's status, statusText and body when it is a
    success, with its ResponseKey when it is a failure. The promise is then
    settled with that value. *)
Theorem broadcast_settles_once_at_first_quorum (n : nat) (vs : list vote) :
  let F := fault_tolerance n in
  let '(s, tr) := run_votes F vs in
  (forall k, count (responseMap s) k = count_in k vs) /\
  (forall i j e1 e2, tr !! i = Some (Some e1) -> tr !! j = Some (Some e2) -> i = j) /\
  (forall i e, tr !! i = Some (Some e) <-> first_quorum F vs i e) /\
  (forall i e, first_quorum F vs i e -> broadcast_promise F vs = promise_of e).
Proof.
  intros F. pose proof (run_votes_inv F vs) as Hinv.
  pose proof (broadcast_promise_first_quorum F vs) as Hbp.
  destruct (run_votes F vs) as [s tr]. destruct Hinv as (Hcnt & _ & _ & Htr).
  split; [exact Hcnt|]. split; [|split; [exact Htr|]].
  - intros i j e1 e2 Hi Hj. apply Htr in Hi, Hj.
    exact (first_quorum_unique F vs i j e1 e2 Hi Hj).
  - exact Hbp.
Qed.

(** C2: when the arrivals split so that no ResponseKey is counted [F + 1]
    times, neither [resolve] nor [reject] is ever called and the promise
    stays pending, whatever the arrival order. *)
Theorem broadcast_pending_without_quorum (n : nat) (vs : list vote) :
  (forall k, count_in k vs < fault_tolerance n + 1) ->
  (forall i e, (run_votes (fault_tolerance n) vs).2 !! i <> Some (Some e)) /\
  broadcast_promise (fault_tolerance n) vs = Pending.
Proof.
  intros Hsplit.
  assert (Hnone : forall i e, (run_votes (fault_tolerance n) vs).2 !! i <> Some (Some e)).
  { intros i e Hi. pose proof (run_votes_inv (fault_tolerance n) vs) as Hinv.
    destruct (run_votes (fault_tolerance n) vs) as [s tr]. simpl in Hi.
    destruct Hinv as (_ & _ & _ & Htr). apply Htr in Hi.
    destruct Hi as (v & Hv & Hc & _).
    destruct (reaches_total (fault_tolerance n) vs i) as (k & Hk); [exists v; auto|].
    specialize (Hsplit k). lia. }
  split; [exact Hnone|].
  unfold broadcast_promise. rewrite first_call_none by exact Hnone. reflexivity.
Qed.


Lemma broadcast_pending_without_quorum_witness :
  (forall k, count_in k (omap node_vote split_arrivals) < fault_tolerance 4 + 1) /\
  broadcast 4 split_arrivals = Pending.
Proof.
  assert (H : forall k, count_in k (omap node_vote split_arrivals) < fault_tolerance 4 + 1).
  { intros k. rewrite fault_tolerance_4.
    assert (Hd : NoDup (map response_key (omap node_vote split_arrivals)))
      by (apply (bool_decide_unpack _); vm_compute; reflexivity).
    pose proof (count_in_nodup k _ Hd). lia. }
  split; [exact H|].
  exact (proj2 (broadcast_pending_without_quorum 4 (omap node_vote split_arrivals) H)).
Defined.

(* ------------------------------------------------------------------ *)
(** ** Per-node timeout *)

(** C5: a node with no answer before the 7000 ms deadline contributes one
    failure vote [{520, "Request Timeout", ""}], with ResponseKey
    "520 Request Timeout "; processing it adds one to that key's counter
    only, and it calls [reject] only when it completes a quorum of [F + 1]
    such votes before the call settled. *)
Theorem timeout_counts_as_one_failure_vote (answer : option (Z * outcome)) (F : Z) (s : bstate) :
  (answer = None \/ exists t o, answer = Some (t, o) /\ timeout_ms <= t) ->
  let tv := FailVote (Some 520) (Some "Request Timeout") "" in
  node_vote answer = Some tv /\
  response_key tv = "520 Request Timeout " /\
  (forall k, count (responseMap (process_vote F s tv).1) k =
             count (responseMap s) k + (if bool_decide ("520 Request Timeout " = k) then 1 else 0)) /\
  (process_vote F s tv).2 =
    if (count (responseMap s) "520 Request Timeout " + 1 =? F + 1) && negb (promiseResolved s)
    then Some (Reject "520 Request Timeout ") else None.
Proof.
  intros Hans tv.
  assert (Hkey : response_key tv = "520 Request Timeout ") by reflexivity.
  split; [|split; [exact Hkey|split]].
  - destruct Hans as [->|(t & o & -> & Ht)]; [reflexivity|].
    unfold node_vote, race_with_timeout.
    replace (t <? timeout_ms) with false by (symmetry; apply Z.ltb_ge; exact Ht).
    reflexivity.
  - intros k. rewrite process_vote_counts, Hkey. reflexivity.
  - rewrite process_vote_eq. simpl. reflexivity.
Qed.

Lemma timeout_counts_as_one_failure_vote_witness :
  (None = @None (Z * outcome) \/ exists (t : Z) (o : outcome), @None (Z * outcome) = Some (t, o) /\ timeout_ms <= t) /\
  node_vote None = Some (FailVote (Some 520) (Some "Request Timeout") "").
Proof.
  assert (H : None = @None (Z * outcome) \/ exists (t : Z) (o : outcome), @None (Z * outcome) = Some (t, o) /\ timeout_ms <= t)
    by (left; reflexivity).
  split; [exact H|].
  exact (proj1 (timeout_counts_as_one_failure_vote None 1 bstate_init H)).
Defined.

(* ------------------------------------------------------------------ *)
(** ** Lookup *)

Lemma pbft_lookup_run (E : env) (c : client) (email : option string) (w : world) :
  pbft_lookup E c email w =
  (World (ring w) (trace w ++ [EvBroadcast (lookup_request E email)]) (pbft_client w),
   match net E c (lookup_request E email) with
   | Resolved r => Resolved (Credential "keyid" "fingerprint" [("name", email, true)]
                     "2017-12-10T03: 03: 20.763Z" "2017-12-10T03: 03: 20.763Z"
                     "rsa_encrypt_sign" 4096 (res_body r))
   | Rejected s => Rejected (ErrString s)
   | Pending => Pending
   end).
Proof.
  unfold pbft_lookup, catchM, bindM, _broadcast, emit, liftM, retM, throwM, lookup_request.
  simpl. destruct (net E c _); reflexivity.
Qed.

(** C7: [KeyServer.lookup] with an empty or missing email rejects with the
    validation message and leaves the world as it was: no configuration
    fetch and no request to any node. *)
Theorem ks_lookup_empty_email_rejects_locally (E : env) (email : option string) (w : world) :
  falsy email = true ->
  ks_lookup E email w = (w, Rejected (ErrString "Only lookup by email is currently supported by PBFT")).
Proof. intros Hf. unfold ks_lookup. rewrite Hf. reflexivity. Qed.

Lemma ks_lookup_empty_email_rejects_locally_witness :
  falsy (Some "") = true /\
  ks_lookup env_404 (Some "") world_init =
    (world_init, Rejected (ErrString "Only lookup by email is currently supported by PBFT")).
Proof.
  split; [reflexivity|].
  exact (ks_lookup_empty_email_rejects_locally env_404 (Some "") world_init eq_refl).
Defined.

(* ------------------------------------------------------------------ *)
(** ** Configuration caching *)

Lemma bindM_run {A B} (m : M A) (k : A -> M B) (w : world) :
  bindM m k w = match m w with
                | (w', Resolved a) => k a w'
                | (w', Rejected e) => (w', Rejected e)
                | (w', Pending) => (w', Pending)
                end.
Proof. unfold bindM. destruct (m w) as [w' [|a|e]]; reflexivity. Qed.

Lemma catchM_run {A} (m : M A) (h : jserr -> M A) (w : world) :
  catchM m h w = match m w with
                 | (w', Rejected e) => h e w'
                 | (w', Resolved a) => (w', Resolved a)
                 | (w', Pending) => (w', Pending)
                 end.
Proof. unfold catchM. destruct (m w) as [w' [|a|e]]; reflexivity. Qed.

Lemma V1_lookup_run (E : env) (c : client) (email : option string) (w : world) :
  V1.lookup E c email w =
  (World (ring w) (trace w ++ [EvBroadcast (lookup_request E email)]) (pbft_client w),
   match net E c (lookup_request E email) with
   | Resolved r => Resolved r
   | Rejected s => Rejected (ErrString s)
   | Pending => Pending
   end).
Proof.
  unfold V1.lookup, V1._broadcast, catchM, bindM, emit, liftM, retM, throwM, lookup_request.
  simpl. destruct (net E c _); reflexivity.
Qed.

Lemma getPBFTClient_fresh (E : env) (ns : list node) (w : world) :
  config_doc E = Resolved ns -> pbft_client w = None ->
  getPBFTClient E w = (World (ring w) (trace w ++ [EvFetchConfig]) None, Resolved (new_PBFTClient ns)).
Proof.
  intros Hcfg Hw. unfold getPBFTClient. rewrite Hw.
  unfold bindM, emit, liftM, retM. cbn. rewrite Hw, Hcfg. reflexivity.
Qed.

Lemma ks_lookup_run (E : env) (email : string) (ns : list node) (w : world) :
  config_doc E = Resolved ns -> falsy (Some email) = false -> pbft_client w = None ->
  ks_lookup E (Some email) w =
    (World (ring w) (trace w ++ [EvFetchConfig; EvBroadcast (lookup_request E (Some email))]) None,
     match net E (new_PBFTClient ns) (lookup_request E (Some email)) with
     | Resolved r =>
         match render_json (res_body r) with
         | Some text => Resolved (json_parse E text)
         | None => Resolved None
         end
     | Rejected _ => Resolved None
     | Pending => Pending
     end).
Proof.
  intros Hcfg Hf Hw. unfold ks_lookup. rewrite Hf.
  rewrite catchM_run, bindM_run, (getPBFTClient_fresh E ns w Hcfg Hw).
  rewrite bindM_run, V1_lookup_run. cbn [ring trace pbft_client].
  rewrite <- app_assoc. cbn [app].
  destruct (net E _ _) as [|r|e]; [reflexivity| |reflexivity].
  unfold JSON_parse. destruct (render_json (res_body r)) as [text|]; [|reflexivity].
  destruct (json_parse E text); reflexivity.
Qed.

Lemma ks_lookup_fresh_run (E : env) (email : string) (ns : list node) (w : world) :
  config_doc E = Resolved ns -> falsy (Some email) = false -> pbft_client w = None ->
  (ks_lookup E (Some email) w).1 =
    World (ring w) (trace w ++ [EvFetchConfig; EvBroadcast (lookup_request E (Some email))]) None.
Proof. intros Hcfg Hf Hw. rewrite (ks_lookup_run E email ns w Hcfg Hf Hw). reflexivity. Qed.

(** C6 (code bug): [getPBFTClient] never stores the client it builds in
    [this._pbftClient], so every lookup on the same KeyServer fetches the
    configuration document again: two lookups, two fetches. *)
Theorem getPBFTClient_refetches_config (E : env) (email : string) (ns : list node) :
  config_doc E = Resolved ns -> falsy (Some email) = false ->
  let w1 := (ks_lookup E (Some email) world_init).1 in
  let w2 := (ks_lookup E (Some email) w1).1 in
  pbft_client w2 = None /\
  trace w2 = [EvFetchConfig; EvBroadcast (lookup_request E (Some email));
              EvFetchConfig; EvBroadcast (lookup_request E (Some email))].
Proof.
  intros Hcfg Hf w1 w2.
  assert (H1 : w1 = World [] [EvFetchConfig; EvBroadcast (lookup_request E (Some email))] None)
    by (unfold w1; rewrite (ks_lookup_fresh_run E email ns); auto).
  assert (H2 : w2 = World [] [EvFetchConfig; EvBroadcast (lookup_request E (Some email));
                              EvFetchConfig; EvBroadcast (lookup_request E (Some email))] None)
    by (unfold w2; rewrite H1, (ks_lookup_fresh_run E email ns); auto).
  rewrite H2. split; reflexivity.
Qed.

Lemma getPBFTClient_refetches_config_witness :
  (config_doc env_404 = Resolved nodes4 /\
   falsy (Some "alice@example.org") = false) /\
  pbft_client (ks_lookup env_404 (Some "alice@example.org")
                 (ks_lookup env_404 (Some "alice@example.org") world_init).1).1 = None.
Proof.
  split; [split; reflexivity|].
  exact (proj1 (getPBFTClient_refetches_config env_404 "alice@example.org" _ eq_refl eq_refl)).
Defined.

Lemma findPrivateKey_none (E : env) (email pk fx : string) (w : world) :
  read_armored_fpr E pk = Some fx ->
  filter (fun k => pk_fpr k ≠ fx) (getKeyByAddress (ring w) email) = [] ->
  findPrivateKey E email pk w =
    (w, Rejected (ErrObj ("You do not own the key for the email " +:+ email +:+
                          " so you cannot update it."))).
Proof.
  intros Hr Hnil. unfold findPrivateKey. rewrite Hr.
  unfold bindM. cbv beta.
  replace (exclude_fpr (Some fx) (getKeyByAddress (ring w) email) w)
    with (w, @Resolved (list privkey) jserr []) .
  - reflexivity.
  - destruct (getKeyByAddress (ring w) email); [reflexivity|].
    unfold exclude_fpr, retM. rewrite Hnil. reflexivity.
Qed.

Lemma findPrivateKey_first (E : env) (email pk fx : string) (w : world) (k : privkey) (rest : list privkey) :
  read_armored_fpr E pk = Some fx ->
  filter (fun k => pk_fpr k ≠ fx) (getKeyByAddress (ring w) email) = k :: rest ->
  findPrivateKey E email pk w =
    (World (ring w) (trace w ++ [EvPromptPassphrase; EvUnlock (pk_fpr k)]) (pbft_client w),
     unlockKey E k (prompt_passphrase E)).
Proof.
  intros Hr Hcons. unfold findPrivateKey. rewrite Hr.
  unfold bindM. cbv beta.
  replace (exclude_fpr (Some fx) (getKeyByAddress (ring w) email) w)
    with (w, @Resolved (list privkey) jserr (k :: rest)).
  - unfold emit, liftM. cbn. rewrite <- app_assoc. reflexivity.
  - destruct (getKeyByAddress (ring w) email); [discriminate Hcons|].
    unfold exclude_fpr, retM. rewrite Hcons. reflexivity.
Qed.

Lemma keeps_ring_ret {A} (a : A) : keeps_ring (retM a).
Proof. intros w. reflexivity. Qed.

Lemma keeps_ring_throw {A} (e : jserr) : keeps_ring (@throwM A e).
Proof. intros w. reflexivity. Qed.

Lemma keeps_ring_lift {A} (p : promise_state A jserr) : keeps_ring (liftM p).
Proof. intros w. reflexivity. Qed.

Lemma keeps_ring_emit (ev : event) : keeps_ring (emit ev).
Proof. intros w. reflexivity. Qed.

Lemma keeps_ring_bind {A B} (m : M A) (k : A -> M B) :
  keeps_ring m -> (forall a, keeps_ring (k a)) -> keeps_ring (bindM m k).
Proof.
  intros Hm Hk w. unfold bindM. pose proof (Hm w) as Hw.
  destruct (m w) as [w' [|a|e]]; simpl in *; [exact Hw| |exact Hw].
  rewrite Hk. exact Hw.
Qed.

Lemma keeps_ring_catch {A} (m : M A) (h : jserr -> M A) :
  keeps_ring m -> (forall e, keeps_ring (h e)) -> keeps_ring (catchM m h).
Proof.
  intros Hm Hh w. unfold catchM. pose proof (Hm w) as Hw.
  destruct (m w) as [w' [|a|e]]; simpl in *; [exact Hw|exact Hw|].
  rewrite Hh. exact Hw.
Qed.

Lemma catchM_ring {A} (m : M A) (h : jserr -> M A) (w : world) :
  (forall e, keeps_ring (h e)) -> ring (catchM m h w).1 = ring (m w).1.
Proof.
  intros Hh. unfold catchM. destruct (m w) as [w' [|a|e]]; simpl; [reflexivity|reflexivity|].
  apply Hh.
Qed.

Lemma bindM_ring {A B} (m : M A) (k : A -> M B) (w : world) :
  keeps_ring m ->
  ring (bindM m k w).1 = ring w \/
  exists a w', m w = (w', Resolved a) /\ ring w' = ring w /\ ring (bindM m k w).1 = ring (k a w').1.
Proof.
  intros Hm. unfold bindM. pose proof (Hm w) as Hw.
  destruct (m w) as [w' [|a|e]]; simpl in *; [left; exact Hw| |left; exact Hw].
  right. exists a, w'. auto.
Qed.

Create HintDb ring_frame.
#[local] Hint Resolve keeps_ring_ret keeps_ring_throw keeps_ring_lift keeps_ring_emit
  keeps_ring_bind keeps_ring_catch : ring_frame.

Lemma keeps_ring_broadcast (E : env) (c : client) (p m : option string) (b : option payload) :
  keeps_ring (_broadcast E c p m b).
Proof. unfold _broadcast. auto with ring_frame. Qed.

Lemma keeps_ring_lookup (E : env) (c : client) (email : option string) :
  keeps_ring (pbft_lookup E c email).
Proof. unfold pbft_lookup. pose proof keeps_ring_broadcast. auto with ring_frame. Qed.

Lemma keeps_ring_findPrivateKey (E : env) (email pk : string) :
  keeps_ring (findPrivateKey E email pk).
Proof.
  intros w. unfold findPrivateKey.
  apply keeps_ring_bind.
  - destruct (getKeyByAddress (ring w) email), (read_armored_fpr E pk);
      unfold exclude_fpr; auto with ring_frame.
  - intros [|k rest]; auto with ring_frame.
Qed.

Lemma keeps_ring_signPayload (E : env) (p : payload) (k : privkey) :
  keeps_ring (signPayload E p k).
Proof. unfold signPayload. auto with ring_frame. Qed.

Lemma signPayload_resolved (E : env) (p sp : payload) (k : privkey) (w w' : world) :
  signPayload E p k w = (w', Resolved sp) -> exists sig, sp = appendSignature p (Some sig).
Proof.
  unfold signPayload, bindM, emit, liftM, retM. cbn.
  destruct (openpgp_sign E p k) as [|sig|e]; cbn; intros H; inversion H; eauto.
Qed.

Lemma broadcast_resolved (E : env) (c : client) (p m : string) (b : payload) (r : http_result)
    (w w' : world) :
  _broadcast E c (Some p) (Some m) (Some b) w = (w', Resolved r) ->
  net E c (Request (Some p) m (Some b)) = Resolved r.
Proof.
  unfold _broadcast, bindM, emit, liftM. cbn.
  destruct (net E c _); cbn; intros H; inversion H; reflexivity.
Qed.

(** Split on the first [.then] of a chain whose first stage keeps the ring. *)
Tactic Notation "split_then" constr(Hm) "as" simple_intropattern(pat) :=
  lazymatch goal with
  | |- context [ring (bindM ?m ?k ?w).1] => destruct (bindM_ring m k w Hm) as pat
  end.

Lemma upload_ring_changes_only_on_put (E : env) (c : client) (email pk : string) (w : world) :
  ring (pbft_upload E c email pk w).1 = ring w \/
  exists fpr sig r',
    net E c (Request (Some "") "PUT" (Some (appendSignature (genPayload E email pk) (Some sig))))
      = Resolved r' /\
    ring (pbft_upload E c email pk w).1 = removeKey fpr (ring w).
Proof.
  unfold pbft_upload. rewrite catchM_ring.
  2:{ intros e. destruct (is_not_found e); pose proof keeps_ring_broadcast;
      auto with ring_frame. }
  split_then (keeps_ring_lookup E c (Some email)) as [H|(a1 & w1 & _ & Hr1 & ->)];
    [left; exact H|].
  split_then (keeps_ring_findPrivateKey E email pk) as [H|(key & w2 & _ & Hr2 & ->)];
    [left; congruence|].
  split_then (keeps_ring_signPayload E (genPayload E email pk) key)
    as [H|(sp & w3 & Hsp & Hr3 & ->)]; [left; congruence|].
  destruct (signPayload_resolved _ _ _ _ _ _ Hsp) as (sig & ->).
  rewrite catchM_ring by (intros e; apply keeps_ring_throw).
  split_then (keeps_ring_broadcast E c (Some "") (Some "PUT")
                (Some (appendSignature (genPayload E email pk) (Some sig))))
    as [H|(r & w4 & Hput & Hr4 & ->)]; [left; congruence|].
  right. exists (pk_fpr key), sig, r. split.
  - exact (broadcast_resolved _ _ _ _ _ _ _ _ Hput).
  - unfold bindM, removeKeyM, retM. simpl. congruence.
Qed.

(** C8: in [upload], a lookup rejected with a string starting with "404"
    leads to the signature prompt and a POST of the freshly generated payload
    carrying that signature (the result of the POST is the result of the
    upload); any other lookup rejection is rethrown unchanged, with no
    further request. *)
Theorem upload_lookup_failure_branches (E : env) (c : client) (email pk : string) (w : world) (s : string) :
  net E c (lookup_request E (Some email)) = Rejected s ->
  let lreq := lookup_request E (Some email) in
  let post := Request (Some "") "POST"
                (Some (appendSignature (genPayload E email pk) (prompt_signature E))) in
  (String.prefix "404" s = true ->
     pbft_upload E c email pk w =
       (World (ring w) (trace w ++ [EvBroadcast lreq; EvPromptSignature; EvBroadcast post])
              (pbft_client w),
        match net E c post with
        | Resolved r => Resolved r
        | Rejected e => Rejected (ErrMessage (ErrString e))
        | Pending => Pending
        end)) /\
  (String.prefix "404" s = false ->
     pbft_upload E c email pk w =
       (World (ring w) (trace w ++ [EvBroadcast lreq]) (pbft_client w), Rejected (ErrString s))).
Proof.
  intros Hnet lreq post. split; intros Hp;
    unfold pbft_upload, catchM, bindM, _broadcast, emit, liftM, retM, throwM; cbv beta;
    rewrite pbft_lookup_run, Hnet; cbn -[pbft_lookup findPrivateKey signPayload];
    rewrite Hp.
  - cbn. rewrite <- !app_assoc. simpl. fold post. destruct (net E c post); reflexivity.
  - reflexivity.
Qed.

Lemma upload_lookup_failure_branches_witness :
  net env_404 client4 (lookup_request env_404 (Some "alice@example.org")) = Rejected "404 Not Found " /\
  (pbft_upload env_404 client4 "alice@example.org" "PK" world_init).2
    = Rejected (ErrMessage (ErrString "404 Not Found ")).
Proof.
  assert (H : net env_404 client4 (lookup_request env_404 (Some "alice@example.org"))
              = Rejected "404 Not Found ") by (vm_compute; reflexivity).
  split; [exact H|].
  rewrite (proj1 (upload_lookup_failure_branches env_404 client4 "alice@example.org" "PK"
                    world_init _ H) eq_refl).
  vm_compute. reflexivity.
Defined.

(** C9: in the found branch of [upload], when no key of the keyring for the
    email remains once the fingerprint of the uploaded key is excluded, the
    upload rejects with the ownership error and issues no request after the
    lookup; otherwise the first remaining key is the one unlocked and used for
    signing. *)
Theorem upload_found_needs_owned_key (E : env) (c : client) (email pk : string) (w : world)
    (r : http_result) (fx : string) :
  net E c (lookup_request E (Some email)) = Resolved r ->
  read_armored_fpr E pk = Some fx ->
  (filter (fun k => pk_fpr k ≠ fx) (getKeyByAddress (ring w) email) = [] ->
     pbft_upload E c email pk w =
       (World (ring w) (trace w ++ [EvBroadcast (lookup_request E (Some email))]) (pbft_client w),
        Rejected (ErrObj ("You do not own the key for the email " +:+ email +:+
                          " so you cannot update it.")))) /\
  (forall k rest,
     filter (fun k => pk_fpr k ≠ fx) (getKeyByAddress (ring w) email) = k :: rest ->
     passphrase_ok E k (prompt_passphrase E) = true ->
     exists evs, trace (pbft_upload E c email pk w).1 =
       trace w ++ EvBroadcast (lookup_request E (Some email)) :: EvPromptPassphrase ::
                  EvUnlock (pk_fpr k) :: EvSign (pk_fpr k) :: evs).
Proof.
  intros Hnet Hr. split.
  - intros Hnil.
    unfold pbft_upload, catchM, bindM at 1 2 3 4 5. cbv beta.
    rewrite pbft_lookup_run, Hnet. cbv beta iota.
    rewrite (findPrivateKey_none E email pk fx (World (ring w) (trace w ++ [EvBroadcast (lookup_request E (Some email))]) (pbft_client w)) Hr Hnil).
    reflexivity.
  - intros k rest Hcons Hok.
    unfold pbft_upload, catchM, bindM at 1 2 3 4 5. cbv beta.
    rewrite pbft_lookup_run, Hnet. cbv beta iota.
    rewrite (findPrivateKey_first E email pk fx (World (ring w) (trace w ++ [EvBroadcast (lookup_request E (Some email))]) (pbft_client w)) k rest Hr Hcons).
    unfold unlockKey. rewrite Hok. cbv beta iota.
    unfold signPayload, bindM, emit, liftM, retM, throwM, _broadcast, removeKeyM. cbn.
    repeat case_match; simplify_eq/=; rewrite <- ?app_assoc; eexists; reflexivity.
Qed.

Lemma upload_found_needs_owned_key_witness :
  (pbft_upload env_found client4 "alice@example.org" "PK" world_not_owner).2
    = Rejected (ErrObj "You do not own the key for the email alice@example.org so you cannot update it.") /\
  exists evs, trace (pbft_upload env_found client4 "alice@example.org" "PK" world_owner).1 =
    EvBroadcast (lookup_request env_found (Some "alice@example.org")) :: EvPromptPassphrase ::
    EvUnlock "FPR-OLD" :: EvSign "FPR-OLD" :: evs.
Proof.
  assert (H1 : net env_found client4 (lookup_request env_found (Some "alice@example.org"))
               = Resolved (HttpResult 200 "OK" (JStr "OLD-PUBLIC-KEY"))) by (vm_compute; reflexivity).
  assert (Hfx : read_armored_fpr env_found "PK" = Some "FPR-NEW") by reflexivity.
  assert (Hnil : filter (fun k => pk_fpr k ≠ "FPR-NEW")
                   (getKeyByAddress (ring world_not_owner) "alice@example.org") = [])
    by (vm_compute; reflexivity).
  assert (Hone : filter (fun k => pk_fpr k ≠ "FPR-NEW")
                   (getKeyByAddress (ring world_owner) "alice@example.org") = [alice_old_key])
    by (vm_compute; reflexivity).
  split.
  - rewrite (proj1 (upload_found_needs_owned_key env_found client4 "alice@example.org" "PK"
                      world_not_owner _ _ H1 Hfx) Hnil).
    reflexivity.
  - exact (proj2 (upload_found_needs_owned_key env_found client4 "alice@example.org" "PK"
                    world_owner _ _ H1 Hfx) alice_old_key [] Hone eq_refl).
Defined.

(** C10: in the found branch of [upload] (key found, unlocked and payload
    signed), the old key is removed from the keyring exactly when the PUT
    broadcast resolves; when it rejects or stays pending the keyring is left
    as it was.  Moreover, on every run of [upload] the keyring is either
    unchanged or reduced by [removeKey] after some resolved PUT. *)
Theorem upload_found_retires_old_key_on_commit (E : env) (c : client) (email pk : string)
    (w : world) (r : http_result) (fx : string) (k : privkey) (rest : list privkey) (sig : string) :
  net E c (lookup_request E (Some email)) = Resolved r ->
  read_armored_fpr E pk = Some fx ->
  filter (fun k => pk_fpr k ≠ fx) (getKeyByAddress (ring w) email) = k :: rest ->
  passphrase_ok E k (prompt_passphrase E) = true ->
  openpgp_sign E (genPayload E email pk) (PrivKey (pk_fpr k) (pk_emails k) true) = Resolved sig ->
  let put := Request (Some "") "PUT" (Some (appendSignature (genPayload E email pk) (Some sig))) in
  (ring (pbft_upload E c email pk w).1 =
     match net E c put with Resolved _ => removeKey (pk_fpr k) (ring w) | _ => ring w end /\
   (pbft_upload E c email pk w).2 =
     match net E c put with
     | Resolved r' => Resolved r'
     | Rejected e => Rejected (ErrMessage (ErrString e))
     | Pending => Pending
     end) /\
  (ring (pbft_upload E c email pk w).1 = ring w \/
   exists fpr sig' r',
     net E c (Request (Some "") "PUT" (Some (appendSignature (genPayload E email pk) (Some sig'))))
       = Resolved r' /\
     ring (pbft_upload E c email pk w).1 = removeKey fpr (ring w)).
Proof.
  intros Hnet Hr Hcons Hok Hs put.
  split; [|apply upload_ring_changes_only_on_put].
  unfold pbft_upload, catchM, bindM. cbv beta.
  rewrite pbft_lookup_run, Hnet. cbv beta iota.
  rewrite (findPrivateKey_first E email pk fx
             (World (ring w) (trace w ++ [EvBroadcast (lookup_request E (Some email))]) (pbft_client w))
             k rest Hr Hcons).
  unfold unlockKey. rewrite Hok. cbv beta iota.
  unfold signPayload, bindM, emit, liftM, retM, throwM, _broadcast, removeKeyM. cbn.
  rewrite Hs. cbn. subst put.
  destruct (net E c (Request (Some "") "PUT" _)); cbn; split; reflexivity.
Qed.

Lemma upload_found_retires_old_key_on_commit_witness :
  ring (pbft_upload env_found client4 "alice@example.org" "PK" world_owner).1 = [] /\
  (pbft_upload env_found client4 "alice@example.org" "PK" world_owner).2
    = Resolved (HttpResult 200 "OK" (JStr "committed")).
Proof.
  assert (H1 : net env_found client4 (lookup_request env_found (Some "alice@example.org"))
               = Resolved (HttpResult 200 "OK" (JStr "OLD-PUBLIC-KEY"))) by (vm_compute; reflexivity).
  assert (Hone : filter (fun k => pk_fpr k ≠ "FPR-NEW")
                   (getKeyByAddress (ring world_owner) "alice@example.org") = [alice_old_key])
    by (vm_compute; reflexivity).
  destruct (upload_found_retires_old_key_on_commit env_found client4 "alice@example.org" "PK"
              world_owner _ "FPR-NEW" alice_old_key [] "SIG" H1 eq_refl Hone eq_refl eq_refl)
    as [[Hring Hres] _].
  rewrite Hring, Hres. vm_compute. split; reflexivity.
Defined.

(* ------------------------------------------------------------------ *)
(** ** The latch for any key *)

Section LatchFacts.
Context {V : Type} (key : V -> string) (settle : V -> settlement).

Lemma latch_run_snoc (F : Z) (vs : list V) (v : V) :
  latch_run key settle F (vs ++ [v]) =
  (let '(s, tr) := latch_run key settle F vs in
   let '(s', e) := latch_step key settle F s v in (s', tr ++ [e])).
Proof.
  unfold latch_run. rewrite fold_left_app. simpl.
  destruct (fold_left _ vs _) as [s tr]. reflexivity.
Qed.

Lemma count_by_app (k : string) (l1 l2 : list V) :
  count_by key k (l1 ++ l2) = count_by key k l1 + count_by key k l2.
Proof. induction l1 as [|w l1 IH]; simpl; lia. Qed.

Lemma count_by_single (k : string) (v : V) :
  count_by key k [v] = if bool_decide (key v = k) then 1 else 0.
Proof. simpl. lia. Qed.

Lemma count_by_take_le (k : string) (vs : list V) (n : nat) :
  count_by key k (take n vs) <= count_by key k vs.
Proof.
  revert n. induction vs as [|w vs IH]; intros [|n]; simpl.
  - lia.
  - lia.
  - pose proof (IH 0%nat). simpl in *. case_bool_decide; lia.
  - pose proof (IH n). lia.
Qed.

Lemma count_by_nonneg (k : string) (vs : list V) : 0 <= count_by key k vs.
Proof. induction vs as [|w vs IH]; simpl; [lia|case_bool_decide; lia]. Qed.

Lemma count_by_two_keys (k1 k2 : string) (vs : list V) :
  k1 <> k2 -> count_by key k1 vs + count_by key k2 vs <= Z.of_nat (length vs).
Proof.
  intros Hne. induction vs as [|w vs IH]; simpl; [lia|].
  do 2 case_bool_decide; try congruence; lia.
Qed.

Lemma reaches_by_snoc_lt (F : Z) (vs : list V) (v : V) (j : nat) :
  (j < length vs)%nat -> reaches_by key F (vs ++ [v]) j <-> reaches_by key F vs j.
Proof.
  intros Hj. unfold reaches_by.
  rewrite lookup_app_l by lia. rewrite take_app_le by lia. reflexivity.
Qed.

Lemma reaches_by_snoc_last (F : Z) (vs : list V) (v : V) :
  reaches_by key F (vs ++ [v]) (length vs) <-> count_by key (key v) vs + 1 = F + 1.
Proof.
  unfold reaches_by.
  assert (Hl : (vs ++ [v]) !! length vs = Some v)
    by (rewrite lookup_app_r by lia; rewrite Nat.sub_diag; reflexivity).
  assert (Ht : take (S (length vs)) (vs ++ [v]) = vs ++ [v])
    by (apply take_ge; rewrite length_app; simpl; lia).
  assert (Hc : count_by key (key v) (vs ++ [v]) = count_by key (key v) vs + 1)
    by (rewrite count_by_app, count_by_single, bool_decide_eq_true_2 by reflexivity; lia).
  rewrite Hl, Ht. split.
  - intros (w & [= <-] & H). lia.
  - intros H. exists v. split; [reflexivity|lia].
Qed.

Lemma reaches_by_lt_length (F : Z) (vs : list V) (j : nat) :
  reaches_by key F vs j -> (j < length vs)%nat.
Proof. intros (w & Hw & _). apply lookup_lt_Some in Hw. exact Hw. Qed.

Lemma first_quorum_by_snoc_lt (F : Z) (vs : list V) (v : V) (i : nat) (e : settlement) :
  (i < length vs)%nat ->
  first_quorum_by key settle F (vs ++ [v]) i e <-> first_quorum_by key settle F vs i e.
Proof.
  intros Hi. unfold first_quorum_by.
  rewrite lookup_app_l by lia. rewrite take_app_le by lia.
  split; intros (w & Hw & Hc & Hfirst & He); exists w; repeat split; auto;
    intros j Hj; [rewrite <- reaches_by_snoc_lt by lia | rewrite reaches_by_snoc_lt by lia];
    apply Hfirst; lia.
Qed.

Lemma first_quorum_by_lt_length (F : Z) (vs : list V) (i : nat) (e : settlement) :
  first_quorum_by key settle F vs i e -> (i < length vs)%nat.
Proof. intros (w & Hw & _). apply lookup_lt_Some in Hw. exact Hw. Qed.

(** The invariant of the latch: counts, latch flag and the calls made. *)
Lemma latch_run_inv (F : Z) (vs : list V) :
  let '(s, tr) := latch_run key settle F vs in
  (forall k, count (responseMap s) k = count_by key k vs) /\
  (promiseResolved s = true <-> exists j, reaches_by key F vs j) /\
  length tr = length vs /\
  (forall i e, tr !! i = Some (Some e) <-> first_quorum_by key settle F vs i e).
Proof.
  induction vs as [|v vs IH] using rev_ind.
  - simpl. split; [|split; [|split]].
    + intros k. reflexivity.
    + split; [discriminate|]. intros (j & w & Hw & _). inversion Hw.
    + reflexivity.
    + intros i e. split; [rewrite lookup_nil; discriminate|].
      intros (w & Hw & _). inversion Hw.
  - rewrite latch_run_snoc. destruct (latch_run key settle F vs) as [s tr].
    destruct IH as (Hcnt & Hres & Hlen & Htr).
    unfold latch_step. simpl.
    set (c := count (responseMap s) (key v) + 1).
    assert (Hc : c = count_by key (key v) vs + 1) by (unfold c; rewrite Hcnt; reflexivity).
    split; [|split; [|split]].
    + intros k. unfold count at 1. rewrite lookup_insert.
      rewrite count_by_app, count_by_single. case_decide as Hk.
      * subst k. simpl. rewrite bool_decide_eq_true_2 by reflexivity. lia.
      * rewrite bool_decide_eq_false_2 by congruence. fold (count (responseMap s) k).
        rewrite Hcnt. lia.
    + rewrite orb_true_iff, Hres, Z.eqb_eq. split.
      * intros [(j & Hj) | Heq].
        -- exists j. rewrite reaches_by_snoc_lt by (apply (reaches_by_lt_length F); exact Hj).
           exact Hj.
        -- exists (length vs). apply reaches_by_snoc_last. lia.
      * intros (j & Hj). pose proof (reaches_by_lt_length _ _ _ Hj) as Hlt.
        rewrite length_app in Hlt. simpl in Hlt.
        destruct (decide (j = length vs)) as [->|Hne].
        -- right. apply reaches_by_snoc_last in Hj. lia.
        -- left. exists j. rewrite <- reaches_by_snoc_lt by lia. exact Hj.
    + rewrite !length_app, Hlen. reflexivity.
    + intros i e. destruct (Nat.lt_total i (length vs)) as [Hlt|[->|Hgt]].
      * rewrite lookup_app_l by lia. rewrite first_quorum_by_snoc_lt by lia. apply Htr.
      * rewrite lookup_app_r by lia. rewrite Hlen, Nat.sub_diag. simpl.
        split.
        -- destruct (c =? F + 1) eqn:HcF; destruct (promiseResolved s) eqn:Hr;
             simpl; intros H; inversion H; subst e.
           apply Z.eqb_eq in HcF.
           exists v. split; [rewrite lookup_app_r by lia; rewrite Nat.sub_diag; reflexivity|].
           split; [|split; [|reflexivity]].
           ++ rewrite take_ge by (rewrite length_app; simpl; lia).
              rewrite count_by_app, count_by_single, bool_decide_eq_true_2 by reflexivity. lia.
           ++ intros j Hj Hreach. rewrite reaches_by_snoc_lt in Hreach by lia.
              assert (Hf : false = true) by (apply Hres; eauto). discriminate Hf.
        -- intros (w & Hw & Hcw & Hfirst & He).
           rewrite lookup_app_r in Hw by lia. rewrite Nat.sub_diag in Hw.
           simpl in Hw. inversion Hw; subst w.
           rewrite take_ge in Hcw by (rewrite length_app; simpl; lia).
           rewrite count_by_app, count_by_single, bool_decide_eq_true_2 in Hcw by reflexivity.
           assert (HcF : (c =? F + 1) = true) by (apply Z.eqb_eq; lia).
           destruct (promiseResolved s) eqn:Hr.
           ++ exfalso. destruct Hres as [Hres _]. destruct (Hres eq_refl) as (j & Hj).
              pose proof (reaches_by_lt_length _ _ _ Hj).
              apply (Hfirst j); [lia|]. rewrite reaches_by_snoc_lt by lia. exact Hj.
           ++ rewrite HcF. simpl. subst e. reflexivity.
      * rewrite lookup_ge_None_2 by (rewrite length_app, Hlen; simpl; lia).
        split; [discriminate|]. intros Hq. apply first_quorum_by_lt_length in Hq.
        rewrite length_app in Hq. simpl in Hq. lia.
Qed.

Lemma first_quorum_by_unique (F : Z) (vs : list V) (i j : nat) (e1 e2 : settlement) :
  first_quorum_by key settle F vs i e1 -> first_quorum_by key settle F vs j e2 -> i = j.
Proof.
  intros (v & Hv & Hcv & Hfv & _) (w & Hw & Hcw & Hfw & _).
  destruct (Nat.lt_total i j) as [Hlt|[Heq|Hgt]]; [|exact Heq|].
  - exfalso. apply (Hfw i Hlt). exists v. auto.
  - exfalso. apply (Hfv j Hgt). exists w. auto.
Qed.

Lemma latch_first_call (F : Z) (vs : list V) (i : nat) (e : settlement) :
  first_quorum_by key settle F vs i e -> first_call (latch_run key settle F vs).2 = Some e.
Proof.
  intros Hq. pose proof (latch_run_inv F vs) as Hinv.
  destruct (latch_run key settle F vs) as [s tr]. destruct Hinv as (_ & _ & _ & Htr). simpl.
  apply (first_call_at tr i e).
  - apply Htr. exact Hq.
  - intros j e' Hj. apply Htr in Hj.
    exact (first_quorum_by_unique F vs j i e' e Hj Hq).
Qed.

#[local] Instance reaches_by_dec (F : Z) (vs : list V) (j : nat) :
  Decision (reaches_by key F vs j).
Proof.
  unfold reaches_by. destruct (vs !! j) as [w|] eqn:Hw.
  - destruct (decide (count_by key (key w) (take (S j) vs) = F + 1)) as [H|H].
    + left. exists w. auto.
    + right. intros (w' & Hw' & Hc). congruence.
  - right. intros (w' & Hw' & _). congruence.
Defined.

Lemma least_index (P : nat -> Prop) `{forall j, Decision (P j)} (m k : nat) :
  (forall j, (j < k)%nat -> ~ P j) -> P (k + m)%nat ->
  exists i, P i /\ forall j, (j < i)%nat -> ~ P j.
Proof.
  revert k. induction m as [|m IH]; intros k Hbelow Hkm.
  - exists k. rewrite Nat.add_0_r in Hkm. auto.
  - destruct (decide (P k)) as [Hk|Hk]; [exists k; auto|].
    apply (IH (S k)).
    + intros j Hj. destruct (decide (j = k)) as [->|Hne]; [exact Hk|]. apply Hbelow. lia.
    + replace (S k + m)%nat with (k + S m)%nat by lia. exact Hkm.
Qed.

Lemma reaches_by_of_count (F : Z) (vs : list V) (k : string) :
  0 <= F -> F + 1 <= count_by key k vs ->
  exists j, reaches_by key F vs j /\ exists w, vs !! j = Some w /\ key w = k.
Proof.
  intros HF. induction vs as [|v vs IH] using rev_ind; simpl; [lia|].
  rewrite count_by_app, count_by_single. intros Hc.
  destruct (decide (F + 1 <= count_by key k vs)) as [Hle|Hlt].
  - destruct (IH Hle) as (j & Hj & w & Hw & Hk). pose proof (reaches_by_lt_length _ _ _ Hj).
    exists j. split; [apply reaches_by_snoc_lt; auto|].
    exists w. rewrite lookup_app_l by lia. auto.
  - case_bool_decide as Hv; [|lia]. subst k.
    exists (length vs). split; [apply reaches_by_snoc_last; lia|].
    exists v. rewrite lookup_app_r by lia. rewrite Nat.sub_diag. auto.
Qed.

(** When [v] is cast at least [F + 1] times, at most [F] arrivals differ
    from it and none of those shares its key, the latch settles with [v]. *)
Lemma latch_honest_quorum (F : Z) (vs : list V) (v : V) :
  0 <= F ->
  (forall w, w ∈ vs -> key w = key v -> w = v) ->
  F + 1 <= count_by key (key v) vs ->
  Z.of_nat (length vs) - count_by key (key v) vs <= F ->
  first_call (latch_run key settle F vs).2 = Some (settle v).
Proof.
  intros HF Hsame Hv Hothers.
  destruct (reaches_by_of_count F vs (key v) HF Hv) as (j & Hj & _).
  destruct (least_index (reaches_by key F vs) j 0) as (i & Hi & Hmin); [intros; lia|exact Hj|].
  destruct Hi as (w & Hw & Hcw).
  assert (Hkw : key w = key v).
  { destruct (decide (key w = key v)) as [E|Hne]; [exact E|exfalso].
    pose proof (count_by_two_keys (key w) (key v) vs Hne).
    pose proof (count_by_take_le (key w) vs (S i)). lia. }
  assert (w = v) as ->.
  { apply Hsame; [|exact Hkw]. apply list_elem_of_lookup. eauto. }
  apply (latch_first_call F vs i). exists v. auto.
Qed.

End LatchFacts.

(** The current [_broadcast] is the latch on [response_key]. *)
Lemma count_in_by (k : string) (vs : list vote) : count_in k vs = count_by response_key k vs.
Proof. induction vs as [|v vs IH]; simpl; [reflexivity|]. rewrite IH. reflexivity. Qed.

Lemma run_votes_latch (F : Z) (vs : list vote) :
  run_votes F vs = latch_run response_key settlement_of F vs.
Proof.
  unfold run_votes, latch_run. generalize (@bstate_init, @nil (option settlement)).
  induction vs as [|v vs IH]; intros [s tr]; simpl; [reflexivity|].
  rewrite process_vote_eq. apply IH.
Qed.

(** The first revision of [_broadcast] is the latch on [V1.vote_key]. *)
Lemma V1_process_vote_eq (F : Z) (s : bstate) (v : V1.vote) :
  V1.process_vote F s v = latch_step V1.vote_key V1.settle F s v.
Proof.
  destruct s as [m r]; unfold latch_step;
    destruct v as [st txt b|st txt]; cbn [V1.process_vote V1.vote_key V1.settle responseMap promiseResolved];
    rewrite ?count_insert_eq;
    destruct (count m _ + 1 =? F + 1), r; reflexivity.
Qed.

Lemma V1_run_votes_latch (F : Z) (vs : list V1.vote) :
  V1.run_votes F vs = latch_run V1.vote_key V1.settle F vs.
Proof.
  unfold V1.run_votes, latch_run. generalize (@bstate_init, @nil (option settlement)).
  induction vs as [|v vs IH]; intros [s tr]; simpl; [reflexivity|].
  rewrite V1_process_vote_eq. apply IH.
Qed.

Lemma fault_tolerance_nonneg (n : nat) : 0 <= fault_tolerance n.
Proof. unfold fault_tolerance. Z.div_mod_to_equations. lia. Qed.

Lemma count_by_replicate {V} (key : V -> string) (m : nat) (v : V) :
  count_by key (key v) (replicate m v) = Z.of_nat m.
Proof.
  induction m as [|m IH]; simpl; [reflexivity|].
  rewrite bool_decide_eq_true_2 by reflexivity. lia.
Qed.

(** A quorum of [F + 1] identical arrivals at the head of the arrivals is
    the first quorum. *)
Lemma first_quorum_by_replicate {V} (key : V -> string) (settle : V -> settlement)
    (F : Z) (v : V) (rest : list V) :
  0 <= F ->
  first_quorum_by key settle F (replicate (S (Z.to_nat F)) v ++ rest) (Z.to_nat F) (settle v).
Proof.
  intros HF. exists v. split; [|split; [|split; [|reflexivity]]].
  - rewrite lookup_app_l by (rewrite length_replicate; lia).
    apply lookup_replicate_2. lia.
  - rewrite take_app_le by (rewrite length_replicate; lia).
    rewrite take_replicate, Nat.min_id, count_by_replicate. lia.
  - intros j Hj (w & Hw & Hc).
    rewrite lookup_app_l in Hw by (rewrite length_replicate; lia).
    apply lookup_replicate in Hw as [-> _].
    rewrite take_app_le in Hc by (rewrite length_replicate; lia).
    rewrite take_replicate, count_by_replicate in Hc. lia.
Qed.


Lemma count_by_le_length {V} (key : V -> string) (k : string) (l : list V) :
  count_by key k l <= Z.of_nat (length l).
Proof. induction l as [|v l IH]; simpl; [lia|]. case_bool_decide; lia. Qed.

Lemma count_by_all {V} (key : V -> string) (k : string) (l : list V) :
  Forall (fun w => key w = k) l -> count_by key k l = Z.of_nat (length l).
Proof.
  induction 1 as [|w l Hw _ IH]; simpl; [reflexivity|].
  rewrite bool_decide_eq_true_2 by exact Hw. lia.
Qed.

(** [F] arrivals sharing the key of [v], followed by [v]: [v] completes
    the first quorum, whatever the earlier arrivals carry. *)
Lemma first_quorum_by_same_key {V} (key : V -> string) (settle : V -> settlement)
    (F : Z) (l rest : list V) (v : V) :
  0 <= F -> length l = Z.to_nat F -> Forall (fun w => key w = key v) l ->
  first_quorum_by key settle F (l ++ v :: rest) (Z.to_nat F) (settle v).
Proof.
  intros HF Hlen Hall. exists v. split; [|split; [|split; [|reflexivity]]].
  - rewrite lookup_app_r by lia. rewrite Hlen, Nat.sub_diag. reflexivity.
  - rewrite <- Hlen. replace (S (length l)) with (length l + 1)%nat by lia.
    rewrite take_app_add.
    replace (take 1 (v :: rest)) with [v] by reflexivity.
    rewrite (count_by_all key (key v) (l ++ [v])).
    + rewrite length_app. simpl. lia.
    + apply Forall_app. split; [exact Hall|]. constructor; [reflexivity|constructor].
  - intros j Hj (w & Hw & Hc).
    rewrite lookup_app_l in Hw by lia.
    rewrite take_app_le in Hc by lia.
    pose proof (count_by_le_length key (key w) (take (S j) l)) as Hle.
    rewrite length_take in Hle. lia.
Qed.

Lemma omap_cons_some {A B} (f : A -> option B) (x : A) (y : B) (l : list A) :
  f x = Some y -> omap f (x :: l) = y :: omap f l.
Proof. intros Hf. simpl. rewrite Hf. reflexivity. Qed.

Lemma omap_replicate {A B} (f : A -> option B) (m : nat) (x : A) (y : B) :
  f x = Some y -> omap f (replicate m x) = replicate m y.
Proof.
  intros Hf. induction m as [|m IH]; [reflexivity|].
  cbn [replicate]. rewrite (omap_cons_some f x y _ Hf), IH. reflexivity.
Qed.

Lemma fault_tolerance_pos (n : nat) : (2 <= n)%nat -> 1 <= fault_tolerance n.
Proof. intros Hn. unfold fault_tolerance. Z.div_mod_to_equations. lia. Qed.

Lemma node_vote_object (fs : list (string * json)) :
  has_toString fs = false -> node_vote (object_answer fs) = Some (OkVote 200 "OK" (JObj fs)).
Proof.
  intros H. unfold node_vote, object_answer, race_with_timeout, processResponse.
  cbn -[has_toString]. rewrite H. reflexivity.
Qed.

Lemma V1_node_vote_object (fs : list (string * json)) :
  has_toString fs = false -> V1.node_vote (object_answer fs) = Some (V1.OkVote 200 "OK" (JObj fs)).
Proof.
  intros H. unfold V1.node_vote, object_answer, race_with_timeout, V1.processResponse.
  cbn -[has_toString]. rewrite H. reflexivity.
Qed.

(** C3 (code bug): the ResponseKey does not tell two success outcomes
    apart when their bodies are different JSON objects: [`${body}`] is
    "[object Object]" for both. With [N >= 2] nodes, one honest node
    answering the object [real], followed by the [F] faulty nodes
    answering the object [fake], count as [F + 1] identical votes: the
    broadcast resolves with the faulty body, although only [F] nodes sent
    it. This holds for both revisions of [_broadcast]. *)
Theorem object_bodies_share_response_key (n : nat) (fake real : list (string * json))
    (rest : list (option (Z * outcome))) :
  (2 <= n)%nat -> has_toString fake = false -> has_toString real = false ->
  broadcast n (object_answer real ::
               replicate (Z.to_nat (fault_tolerance n)) (object_answer fake) ++ rest)
    = Resolved (HttpResult 200 "OK" (JObj fake)) /\
  V1.broadcast n (object_answer real ::
                  replicate (Z.to_nat (fault_tolerance n)) (object_answer fake) ++ rest)
    = Resolved (HttpResult 200 "OK" (JObj fake)).
Proof.
  intros Hn Hfake Hreal.
  pose proof (fault_tolerance_pos n Hn) as HF.
  set (m := Nat.pred (Z.to_nat (fault_tolerance n))).
  assert (Hm : Z.to_nat (fault_tolerance n) = S m) by (unfold m; lia).
  rewrite Hm.
  rewrite replicate_S_end, <- app_assoc. cbn [app].
  split.
  - unfold broadcast.
    rewrite (omap_cons_some _ _ _ _ (node_vote_object real Hreal)), omap_app,
      (omap_replicate _ _ _ _ (node_vote_object fake Hfake)),
      (omap_cons_some _ _ _ _ (node_vote_object fake Hfake)).
    unfold broadcast_promise. rewrite run_votes_latch.
    rewrite (latch_first_call response_key settlement_of _ _ (Z.to_nat (fault_tolerance n))
               (settlement_of (OkVote 200 "OK" (JObj fake)))); [reflexivity|].
    apply (first_quorum_by_same_key response_key settlement_of _
             (OkVote 200 "OK" (JObj real) :: replicate m (OkVote 200 "OK" (JObj fake)))).
    + lia.
    + simpl. rewrite length_replicate. lia.
    + constructor.
      * cbn -[has_toString]. rewrite Hfake, Hreal. reflexivity.
      * apply Forall_replicate. reflexivity.
  - unfold V1.broadcast.
    rewrite (omap_cons_some _ _ _ _ (V1_node_vote_object real Hreal)), omap_app,
      (omap_replicate _ _ _ _ (V1_node_vote_object fake Hfake)),
      (omap_cons_some _ _ _ _ (V1_node_vote_object fake Hfake)).
    unfold V1.broadcast_promise. rewrite V1_run_votes_latch.
    rewrite (latch_first_call V1.vote_key V1.settle _ _ (Z.to_nat (fault_tolerance n))
               (V1.settle (V1.OkVote 200 "OK" (JObj fake)))); [reflexivity|].
    apply (first_quorum_by_same_key V1.vote_key V1.settle _
             (V1.OkVote 200 "OK" (JObj real) :: replicate m (V1.OkVote 200 "OK" (JObj fake)))).
    + lia.
    + simpl. rewrite length_replicate. lia.
    + constructor.
      * cbn -[has_toString]. rewrite Hfake, Hreal. reflexivity.
      * apply Forall_replicate. reflexivity.
Qed.

Lemma object_bodies_share_response_key_witness :
  ((2 <= 4)%nat /\ has_toString [("key", JStr "FAKE")] = false /\
   has_toString [("key", JStr "REAL")] = false) /\
  broadcast 4 [object_answer [("key", JStr "REAL")]; object_answer [("key", JStr "FAKE")]]
    = Resolved (HttpResult 200 "OK" (JObj [("key", JStr "FAKE")])).
Proof.
  split; [split; [lia|split; reflexivity]|].
  exact (proj1 (object_bodies_share_response_key 4 [("key", JStr "FAKE")] [("key", JStr "REAL")] []
                  ltac:(lia) eq_refl eq_refl)).
Defined.

(** C4 (corrected): [KeyServer] uses the first revision of [PBFTClient].
    When the vote [i] of the lookup broadcast is the failure [(st, txt)]
    and completes the first quorum, [PBFTClient.lookup] rejects with
    [`${st} ${txt}`] (no body), unchanged by its [.catch]; on a KeyServer
    without a stored client, [KeyServer.lookup] does not pass it on: its
    [.catch] logs it and the lookup resolves with [undefined]. *)
Theorem lookup_quorum_failure_propagation (E : env) (ns : list node) (email : string)
    (vs : list V1.vote) (i : nat) (st : option Z) (txt : option string) (w : world) :
  config_doc E = Resolved ns -> falsy (Some email) = false -> pbft_client w = None ->
  net E (new_PBFTClient ns) (lookup_request E (Some email)) =
    V1.broadcast_promise (fault_tolerance (length ns)) vs ->
  vs !! i = Some (V1.FailVote st txt) ->
  first_quorum_by V1.vote_key V1.settle (fault_tolerance (length ns)) vs i
    (V1.settle (V1.FailVote st txt)) ->
  V1.lookup E (new_PBFTClient ns) (Some email) w =
    (World (ring w) (trace w ++ [EvBroadcast (lookup_request E (Some email))]) (pbft_client w),
     Rejected (ErrString (render_opt_Z st +:+ " " +:+ render_opt_str txt))) /\
  ks_lookup E (Some email) w =
    (World (ring w) (trace w ++ [EvFetchConfig; EvBroadcast (lookup_request E (Some email))]) None,
     Resolved None).
Proof.
  intros Hcfg Hf Hw Hnet Hi Hq.
  assert (Hb : V1.broadcast_promise (fault_tolerance (length ns)) vs =
               Rejected (render_opt_Z st +:+ " " +:+ render_opt_str txt)).
  { unfold V1.broadcast_promise. rewrite V1_run_votes_latch, (latch_first_call _ _ _ _ _ _ Hq).
    reflexivity. }
  split.
  - rewrite V1_lookup_run, Hnet, Hb. reflexivity.
  - rewrite (ks_lookup_run E email ns w Hcfg Hf Hw), Hnet, Hb. reflexivity.
Qed.

Lemma lookup_quorum_failure_propagation_witness :
  (V1.lookup env_404_v1 (new_PBFTClient nodes4) (Some "alice@example.org") world_init).2
    = Rejected (ErrString "404 Not Found") /\
  ks_lookup env_404_v1 (Some "alice@example.org") world_init
    = (World [] [EvFetchConfig; EvBroadcast (lookup_request env_404_v1 (Some "alice@example.org"))] None,
       Resolved None).
Proof.
  assert (Hq : first_quorum_by V1.vote_key V1.settle (fault_tolerance (length nodes4))
                 [v1_fail404; v1_fail404] 1 (V1.settle (V1.FailVote (Some 404) (Some "Not Found")))).
  { exists v1_fail404. split; [reflexivity|]. split; [vm_compute; reflexivity|].
    split; [|reflexivity].
    intros j Hj (w & Hw & Hc). destruct j as [|j]; [|lia].
    vm_compute in Hw. injection Hw as <-. vm_compute in Hc. discriminate Hc. }
  destruct (lookup_quorum_failure_propagation env_404_v1 nodes4 "alice@example.org"
              [v1_fail404; v1_fail404] 1 (Some 404) (Some "Not Found") world_init
              eq_refl eq_refl eq_refl eq_refl eq_refl Hq) as [H1 H2].
  split; [rewrite H1; reflexivity|exact H2].
Defined.

(** C4: on a cluster whose nodes all answer the lookup with 404 Not
    Found, [PBFTClient.lookup] rejects with "404 Not Found" while
    [KeyServer.lookup] resolves with [undefined]: the failure string does
    not reach the facade's caller, and it carries no body. *)
Lemma ks_lookup_swallows_quorum_failure :
  (V1.lookup env_404_v1 client4 (Some "alice@example.org") world_init).2
    = Rejected (ErrString "404 Not Found") /\
  (ks_lookup env_404_v1 (Some "alice@example.org") world_init).2 = Resolved None.
Proof. split; vm_compute; reflexivity. Qed.



(* ------------------------------------------------------------------ *)
(** ** Further properties of the quorum broadcast *)

(** Honest quorum: when the vote [v] arrives at least [F + 1] times, at most
    [F] arrivals are something else, and no other arrival shares its
    ResponseKey, the broadcast settles with [v], whatever the order. *)
Theorem broadcast_honest_quorum (n : nat) (vs : list vote) (v : vote) :
  (forall w, w ∈ vs -> response_key w = response_key v -> w = v) ->
  fault_tolerance n + 1 <= count_in (response_key v) vs ->
  Z.of_nat (length vs) - count_in (response_key v) vs <= fault_tolerance n ->
  broadcast_promise (fault_tolerance n) vs = promise_of (settlement_of v).
Proof.
  intros Hsame Hv Hothers. rewrite count_in_by in Hv, Hothers.
  unfold broadcast_promise. rewrite run_votes_latch.
  rewrite (latch_honest_quorum response_key settlement_of _ vs v (fault_tolerance_nonneg n)
             Hsame Hv Hothers).
  destruct v; reflexivity.
Qed.

Lemma broadcast_honest_quorum_witness :
  broadcast_promise (fault_tolerance 4) [okX; fail404; okX] = Resolved (HttpResult 200 "OK" (JStr "KEY-X")).
Proof.
  rewrite (broadcast_honest_quorum 4 [okX; fail404; okX] okX).
  - reflexivity.
  - intros w Hw Hk. apply list_elem_of_In in Hw. simpl in Hw.
    destruct Hw as [<-|[<-|[<-|[]]]]; [reflexivity| |reflexivity].
    vm_compute in Hk. discriminate Hk.
  - vm_compute. discriminate.
  - vm_compute. discriminate.
Defined.

(** [F = Math.ceil((N - 1) / 3)] allows a quorum: for [N >= 1] nodes,
    [0 <= F] and [F + 1 <= N]; the [N - F] nodes outside any [F] faulty
    ones are at least [F + 1] exactly when [N <> 2]. *)
Theorem fault_tolerance_quorum_bounds (n : nat) :
  (1 <= n)%nat ->
  0 <= fault_tolerance n /\ fault_tolerance n + 1 <= Z.of_nat n /\
  (fault_tolerance n + 1 <= Z.of_nat n - fault_tolerance n <-> n <> 2%nat).
Proof.
  intros Hn. unfold fault_tolerance. Z.div_mod_to_equations.
  split; [lia|split; [lia|split; intros Hx; lia]].
Qed.

Lemma fault_tolerance_quorum_bounds_witness :
  fault_tolerance 4 + 1 <= 4 - fault_tolerance 4 /\ ~ (fault_tolerance 2 + 1 <= 2 - fault_tolerance 2).
Proof.
  split.
  - apply (fault_tolerance_quorum_bounds 4); [lia|discriminate].
  - intros H. apply (fault_tolerance_quorum_bounds 2) in H; [exact (H eq_refl)|lia].
Defined.

(** A node whose answer casts no vote: it answered in time, but either the
    body of its response could not be read ([response.json()] rejected on a
    success, [response.text()] on a failure), or, on a success, the parsed
    body cannot be rendered by the template literal ([`${body}`] throws on
    an object with a "toString" member). Such a node is not counted at all:
    the broadcast is the one over the other nodes. *)
Theorem node_vote_none_is_silent (n : nat) (a : option (Z * outcome)) :
  (node_vote a = None <->
     exists t st txt j tx, a = Some (t, Response st txt j tx) /\ t < timeout_ms /\
       (if response_ok st
        then j = None \/ exists body, j = Some body /\ render_json body = None
        else tx = None)) /\
  (node_vote a = None -> forall l1 l2, broadcast n (l1 ++ a :: l2) = broadcast n (l1 ++ l2)).
Proof.
  split.
  - unfold node_vote, race_with_timeout, processResponse. split.
    + destruct a as [[t o]|]; [|discriminate].
      destruct (t <? timeout_ms) eqn:Ht; [|discriminate].
      destruct o as [st txt j tx| |]; try discriminate.
      intros H. exists t, st, txt, j, tx. split; [reflexivity|]. split; [lia|].
      destruct (response_ok st); [|destruct tx; congruence].
      destruct j as [body|]; [|left; reflexivity].
      right. exists body. split; [reflexivity|].
      destruct (render_json body); congruence.
    + intros (t & st & txt & j & tx & -> & Ht & Hj).
      assert (Hlt : (t <? timeout_ms) = true) by lia. rewrite Hlt.
      destruct (response_ok st); [|subst; reflexivity].
      destruct Hj as [->|(body & -> & Hb)]; [reflexivity|]. rewrite Hb. reflexivity.
  - intros Hnone l1 l2. unfold broadcast. rewrite !omap_app. simpl. rewrite Hnone. reflexivity.
Qed.

(** The first revision of [_broadcast] also settles once, at the first
    arrival that brings its key [`${status}${statusText}${body}`] (success)
    or [`${status}${statusText}`] (failure) to [F + 1]; a failure quorum
    rejects with [`${status} ${statusText}`]. *)
Theorem V1_broadcast_settles_once_at_first_quorum (n : nat) (vs : list V1.vote) :
  let F := fault_tolerance n in
  let '(s, tr) := V1.run_votes F vs in
  (forall k, count (responseMap s) k = count_by V1.vote_key k vs) /\
  (forall i j e1 e2, tr !! i = Some (Some e1) -> tr !! j = Some (Some e2) -> i = j) /\
  (forall i e, tr !! i = Some (Some e) <-> first_quorum_by V1.vote_key V1.settle F vs i e) /\
  (forall i e, first_quorum_by V1.vote_key V1.settle F vs i e -> V1.broadcast_promise F vs = promise_of e).
Proof.
  intros F. unfold V1.broadcast_promise. rewrite V1_run_votes_latch.
  pose proof (latch_run_inv V1.vote_key V1.settle F vs) as Hinv.
  pose proof (latch_first_call V1.vote_key V1.settle F vs) as Hfc.
  destruct (latch_run V1.vote_key V1.settle F vs) as [s tr].
  destruct Hinv as (Hcnt & _ & _ & Htr). simpl in Hfc.
  split; [exact Hcnt|]. split; [|split; [exact Htr|]].
  - intros i j e1 e2 Hi Hj. apply Htr in Hi, Hj.
    exact (first_quorum_by_unique V1.vote_key V1.settle F vs i j e1 e2 Hi Hj).
  - intros i e Hq. cbn [snd]. rewrite (Hfc i e Hq). destruct e; reflexivity.
Qed.

Lemma omap_map_const {A B C} (f : B -> option C) (g : A -> B) (y : C) (l : list A) :
  (forall x, x ∈ l -> f (g x) = Some y) -> omap f (map g l) = replicate (length l) y.
Proof.
  induction l as [|x l IH]; intros Hl; [reflexivity|].
  cbn [map length replicate].
  change (omap f (g x :: map g l))
    with (match f (g x) with Some b => b :: omap f (map g l) | None => omap f (map g l) end).
  rewrite (Hl x) by (apply list_elem_of_here). rewrite IH; [reflexivity|].
  intros x' Hx'. apply Hl. apply list_elem_of_further. exact Hx'.
Qed.

Lemma V1_failure_votes (st : Z) (txt : string) (answers : list (Z * option json * option string)) :
  response_ok st = false ->
  Forall (fun a => a.1.1 < timeout_ms) answers ->
  omap V1.node_vote (map (fun a => Some (a.1.1, Response st txt a.1.2 a.2)) answers) =
    replicate (length answers) (V1.FailVote (Some st) (Some txt)).
Proof.
  intros Hst Hall. apply omap_map_const. intros a Ha.
  rewrite Forall_forall in Hall. specialize (Hall a Ha).
  unfold V1.node_vote, race_with_timeout, V1.processResponse.
  assert (Hlt : (a.1.1 <? timeout_ms) = true) by lia. rewrite Hlt, Hst. reflexivity.
Qed.

(** In the first revision, a failure key ignores the body: [F + 1]
    failure responses with the same status and statusText arriving first
    reject the broadcast with [`${status} ${statusText}`], whatever their
    bodies (readable or not) and whatever arrives afterwards. *)
Theorem V1_failure_quorum_ignores_bodies (n : nat) (st : Z) (txt : string)
    (answers : list (Z * option json * option string)) (rest : list (option (Z * outcome))) :
  response_ok st = false ->
  Z.of_nat (length answers) = fault_tolerance n + 1 ->
  Forall (fun a => a.1.1 < timeout_ms) answers ->
  V1.broadcast n (map (fun a => Some (a.1.1, Response st txt a.1.2 a.2)) answers ++ rest) =
    Rejected (render_Z st +:+ " " +:+ txt).
Proof.
  intros Hst Hlen Hall. unfold V1.broadcast, V1.broadcast_promise.
  rewrite omap_app, V1_failure_votes by assumption. rewrite V1_run_votes_latch.
  pose proof (fault_tolerance_nonneg n) as HF.
  replace (length answers) with (S (Z.to_nat (fault_tolerance n))) by lia.
  rewrite (latch_first_call V1.vote_key V1.settle _ _ (Z.to_nat (fault_tolerance n))
             (V1.settle (V1.FailVote (Some st) (Some txt)))).
  - reflexivity.
  - apply first_quorum_by_replicate. exact HF.
Qed.

Lemma V1_failure_quorum_ignores_bodies_witness :
  V1.broadcast 4 ([Some (5, Response 404 "Not Found" None (Some "no such key"));
                   Some (9, Response 404 "Not Found" (Some JNull) None)] ++ [None])
  = Rejected "404 Not Found".
Proof.
  apply (V1_failure_quorum_ignores_bodies 4 404 "Not Found"
           [(5, None, Some "no such key"); (9, Some JNull, None)] [None]).
  - reflexivity.
  - reflexivity.
  - repeat constructor; simpl; unfold timeout_ms; lia.
Defined.

(* ------------------------------------------------------------------ *)
(** ** Further properties of the workflows *)

(** With an uploaded key that does not parse, the found branch of
    [upload] ends after the lookup: with the ownership error when the
    keyring has no key for the email, and with the [TypeError] of the
    [filter] callback otherwise. *)
Theorem upload_unreadable_key (E : env) (c : client) (email pk : string) (w : world)
    (r : http_result) :
  net E c (lookup_request E (Some email)) = Resolved r ->
  read_armored_fpr E pk = None ->
  pbft_upload E c email pk w =
    (World (ring w) (trace w ++ [EvBroadcast (lookup_request E (Some email))]) (pbft_client w),
     match getKeyByAddress (ring w) email with
     | [] => Rejected (ErrObj ("You do not own the key for the email " +:+ email +:+
                               " so you cannot update it."))
     | _ :: _ => Rejected ErrTypeError
     end).
Proof.
  intros Hnet Hr.
  unfold pbft_upload, catchM, bindM at 1 2 3 4 5. cbv beta.
  rewrite pbft_lookup_run, Hnet. cbv beta iota.
  unfold findPrivateKey. rewrite Hr. cbn [ring].
  destruct (getKeyByAddress (ring w) email); reflexivity.
Qed.

Lemma upload_unreadable_key_witness :
  pbft_upload env_unreadable_key client4 "alice@example.org" "PK" world_owner =
    (World [alice_old_key] [EvBroadcast (lookup_request env_unreadable_key (Some "alice@example.org"))] None,
     Rejected ErrTypeError).
Proof.
  rewrite (upload_unreadable_key env_unreadable_key client4 "alice@example.org" "PK" world_owner
             (HttpResult 200 "OK" (JStr "OLD-PUBLIC-KEY"))).
  - vm_compute. reflexivity.
  - vm_compute. reflexivity.
  - reflexivity.
Defined.

Lemma quiet_ret {A} (a : A) : quiet (retM a).
Proof. intros w. exists []. rewrite app_nil_r. auto. Qed.

Lemma quiet_throw {A} (e : jserr) : quiet (@throwM A e).
Proof. intros w. exists []. rewrite app_nil_r. auto. Qed.

Lemma quiet_lift {A} (p : promise_state A jserr) : quiet (liftM p).
Proof. intros w. exists []. rewrite app_nil_r. auto. Qed.

Lemma quiet_emit (ev : event) : (forall r, ev <> EvBroadcast r) -> quiet (emit ev).
Proof.
  intros Hev w. exists [ev]. split; [reflexivity|].
  destruct ev; try reflexivity. exfalso. eapply Hev. reflexivity.
Qed.

Lemma quiet_bind {A B} (m : M A) (k : A -> M B) :
  quiet m -> (forall a, quiet (k a)) -> quiet (bindM m k).
Proof.
  intros Hm Hk w. unfold bindM. destruct (Hm w) as (evs & Ht & Hb).
  destruct (m w) as [w' [|a|e]]; simpl in *; [exists evs; auto| |exists evs; auto].
  destruct (Hk a w') as (evs' & Ht' & Hb'). exists (evs ++ evs').
  rewrite Ht', Ht, app_assoc. split; [reflexivity|].
  unfold broadcasts in *. rewrite omap_app, Hb, Hb'. reflexivity.
Qed.

Create HintDb quiet_db.
#[local] Hint Resolve quiet_ret quiet_throw quiet_lift quiet_bind : quiet_db.
#[local] Hint Extern 1 (quiet (emit _)) => apply quiet_emit; discriminate : quiet_db.

Lemma quiet_findPrivateKey (E : env) (email pk : string) : quiet (findPrivateKey E email pk).
Proof.
  intros w. unfold findPrivateKey. refine (quiet_bind _ _ _ _ w).
  - destruct (getKeyByAddress (ring w) email), (read_armored_fpr E pk);
      unfold exclude_fpr; auto with quiet_db.
  - intros [|k rest]; auto with quiet_db.
Qed.

Lemma quiet_signPayload (E : env) (p : payload) (k : privkey) : quiet (signPayload E p k).
Proof. unfold signPayload. auto with quiet_db. Qed.

Lemma broadcast_run (E : env) (c : client) (p : option string) (m : string) (b : option payload)
    (w : world) :
  _broadcast E c p (Some m) b w =
    (World (ring w) (trace w ++ [EvBroadcast (Request p m b)]) (pbft_client w),
     match net E c (Request p m b) with
     | Resolved r => Resolved r
     | Rejected s => Rejected (ErrString s)
     | Pending => Pending
     end).
Proof.
  unfold _broadcast, bindM, emit, liftM. cbn. destruct (net E c _); reflexivity.
Qed.

Lemma broadcasts_app (l1 l2 : list event) : broadcasts (l1 ++ l2) = broadcasts l1 ++ broadcasts l2.
Proof. unfold broadcasts. apply omap_app. Qed.

Lemma upload_commit_shape (E : env) (c : client) (email pk : string) (w : world) :
  let m := findPrivateKey E email pk >>= fun oldPrivateKey =>
     signPayload E (genPayload E email pk) oldPrivateKey >>= fun signedPayload =>
     catchM (_broadcast E c (Some "") (Some "PUT") (Some signedPayload) >>= fun r =>
             removeKeyM (pk_fpr oldPrivateKey) >>= fun _ => retM r)
       (fun e => throwM (ErrMessage e)) in
  exists evs, trace (m w).1 = trace w ++ evs /\
   (broadcasts evs = [] \/
    exists sig, broadcasts evs =
      [Request (Some "") "PUT" (Some (appendSignature (genPayload E email pk) (Some sig)))] /\
      forall e, (m w).2 = Rejected e -> is_not_found e = false).
Proof.
  intros m. unfold m. rewrite bindM_run.
  pose proof (quiet_findPrivateKey E email pk w) as (evs1 & Ht1 & Hb1).
  destruct (findPrivateKey E email pk w) as [w1 [|k|e]]; cbn [fst snd] in *;
    [exists evs1; auto| |exists evs1; auto].
  rewrite bindM_run.
  pose proof (quiet_signPayload E (genPayload E email pk) k w1) as (evs2 & Ht2 & Hb2).
  destruct (signPayload E (genPayload E email pk) k w1) as [w2 [|sp|e]] eqn:Hsp; cbn [fst snd] in *;
    [exists (evs1 ++ evs2); rewrite Ht2, Ht1, app_assoc, broadcasts_app, Hb1, Hb2; auto| |
     exists (evs1 ++ evs2); rewrite Ht2, Ht1, app_assoc, broadcasts_app, Hb1, Hb2; auto].
  destruct (signPayload_resolved _ _ _ _ _ _ Hsp) as (sig & ->).
  rewrite catchM_run, bindM_run, broadcast_run.
  set (put := Request (Some "") "PUT" (Some (appendSignature (genPayload E email pk) (Some sig)))).
  destruct (net E c put) as [|r|s]; cbn [fst snd trace].
  - exists (evs1 ++ evs2 ++ [EvBroadcast put]). rewrite Ht2, Ht1, <- !app_assoc. split; [reflexivity|].
    right. exists sig. rewrite !broadcasts_app, Hb1, Hb2. split; [reflexivity|discriminate].
  - unfold bindM, removeKeyM, retM. cbn [fst snd trace].
    exists (evs1 ++ evs2 ++ [EvBroadcast put; EvRemoveKey (pk_fpr k)]).
    rewrite Ht2, Ht1, <- !app_assoc. split; [reflexivity|].
    right. exists sig. rewrite !broadcasts_app, Hb1, Hb2. split; [reflexivity|discriminate].
  - unfold throwM. cbn [fst snd trace].
    exists (evs1 ++ evs2 ++ [EvBroadcast put]). rewrite Ht2, Ht1, <- !app_assoc. split; [reflexivity|].
    right. exists sig. rewrite !broadcasts_app, Hb1, Hb2. split; [reflexivity|].
    intros e He. inversion He. reflexivity.
Qed.

Lemma upload_fallback_shape (E : env) (c : client) (email pk : string) (e : jserr) (w : world) :
  let post := Request (Some "") "POST"
                (Some (appendSignature (genPayload E email pk) (prompt_signature E))) in
  let h := fun e =>
       if is_not_found e then
         emit EvPromptSignature >>= fun _ =>
         catchM
           (_broadcast E c (Some "") (Some "POST")
              (Some (appendSignature (genPayload E email pk) (prompt_signature E))))
           (fun e => throwM (ErrMessage e))
       else throwM e in
  exists evs, trace (h e w).1 = trace w ++ evs /\
    (broadcasts evs = [] \/ broadcasts evs = [post]) /\
    (is_not_found e = false -> evs = []).
Proof.
  intros post h. unfold h. destruct (is_not_found e).
  - rewrite bindM_run. unfold emit at 1. rewrite catchM_run, broadcast_run.
    exists [EvPromptSignature; EvBroadcast post]. split; [|split; [right; reflexivity|discriminate]].
    destruct (net E c _); cbn; rewrite <- app_assoc; reflexivity.
  - exists []. rewrite app_nil_r. auto.
Qed.

(** [PBFTClient.upload] sends the lookup first and then at most one more
    request to the cluster: either nothing more, or a PUT of the payload
    signed with the old key, or a POST of the payload carrying the
    authority's signature; never both a PUT and a POST. *)
Theorem upload_broadcast_shape (E : env) (c : client) (email pk : string) (w : world) :
  let lreq := lookup_request E (Some email) in
  let put sig := Request (Some "") "PUT" (Some (appendSignature (genPayload E email pk) (Some sig))) in
  let post := Request (Some "") "POST"
                (Some (appendSignature (genPayload E email pk) (prompt_signature E))) in
  exists evs, trace (pbft_upload E c email pk w).1 = trace w ++ evs /\
    (broadcasts evs = [lreq] \/ (exists sig, broadcasts evs = [lreq; put sig]) \/
     broadcasts evs = [lreq; post]).
Proof.
  intros lreq put post. unfold pbft_upload. rewrite catchM_run, bindM_run, pbft_lookup_run.
  set (w1 := World (ring w) (trace w ++ [EvBroadcast (lookup_request E (Some email))]) (pbft_client w)).
  destruct (net E c (lookup_request E (Some email))) as [|r|s]; cbv beta iota.
  - exists [EvBroadcast lreq]. split; [reflexivity|left; reflexivity].
  - pose proof (upload_commit_shape E c email pk w1) as Hc. cbv zeta in Hc.
    destruct Hc as (evs & Ht & Hb).
    match type of Ht with trace (?t).1 = _ => destruct t as [w2 [|a|e]] eqn:Hm end;
      cbn [fst snd] in *.
    + exists (EvBroadcast lreq :: evs). rewrite Ht. split; [unfold w1; cbn; rewrite <- app_assoc; reflexivity|].
      change (EvBroadcast lreq :: evs) with ([EvBroadcast lreq] ++ evs). rewrite broadcasts_app.
      destruct Hb as [Hb|(sig & Hb & _)]; rewrite Hb; [left|right; left; exists sig]; reflexivity.
    + exists (EvBroadcast lreq :: evs). rewrite Ht. split; [unfold w1; cbn; rewrite <- app_assoc; reflexivity|].
      change (EvBroadcast lreq :: evs) with ([EvBroadcast lreq] ++ evs). rewrite broadcasts_app.
      destruct Hb as [Hb|(sig & Hb & _)]; rewrite Hb; [left|right; left; exists sig]; reflexivity.
    + pose proof (upload_fallback_shape E c email pk e w2) as Hh. cbv beta zeta in Hh.
      destruct Hh as (evs2 & Ht2 & Hb2 & Hq). rewrite Ht2, Ht.
      exists (EvBroadcast lreq :: evs ++ evs2). split; [unfold w1; cbn; rewrite <- !app_assoc; reflexivity|].
      change (EvBroadcast lreq :: evs ++ evs2) with ([EvBroadcast lreq] ++ evs ++ evs2).
      rewrite !broadcasts_app.
      destruct Hb as [Hb|(sig & Hb & Hnf)].
      * rewrite Hb. destruct Hb2 as [Hb2|Hb2]; rewrite Hb2; [left|right; right]; reflexivity.
      * rewrite Hb, (Hq (Hnf e eq_refl)). right; left. exists sig. reflexivity.
  - pose proof (upload_fallback_shape E c email pk (ErrString s) w1) as Hh. cbv beta zeta in Hh.
    destruct Hh as (evs2 & Ht2 & Hb2 & _). rewrite Ht2.
    exists (EvBroadcast lreq :: evs2). split; [unfold w1; cbn; rewrite <- app_assoc; reflexivity|].
    change (EvBroadcast lreq :: evs2) with ([EvBroadcast lreq] ++ evs2). rewrite broadcasts_app.
    destruct Hb2 as [Hb2|Hb2]; rewrite Hb2; [left|right; right]; reflexivity.
Qed.
